(** * CarEngineSim: the engine and gearbox of [Engine.py] and [Gearbox.py]

    A shallow embedding of the two simulation classes and the properties of
    their per-tick update rules.

    Conventions of the embedding.
    - A Python [float] is an exact rational ([Q]): every arithmetic expression
      of the source is kept operation for operation, rounding to binary64 is
      not modelled.  The overflow errors of huge operands and the optional
      digit-count limit of [int(str)] are outside the model as well.
    - A Python [int] is a [Z].  A field that holds an [int] at some program
      points and a [float] at others ([current_rpm], [current_hp]) is a
      [pynum], which keeps the dynamic type next to the value.
    - A method is a computation in a state-and-exception monad over the
      object: it returns [Ok v] or [Raise x] together with the object as the
      method left it.
    - [datetime.datetime.now()] is an input of [update_rpm]: the reading of
      the clock in microseconds, the resolution of [datetime].
    - A [str] is a [string]; its characters are the code points below 256. *)

From Stdlib Require Import ZArith QArith Qabs Qminmax Qround.
From Stdlib Require Import Bool List String Ascii.
From Stdlib Require Import Lia Lqa.
Import ListNotations.

Local Open Scope Z_scope.

(** ** Python values and control *)

Module Py.

Inductive exn : Type :=
| TypeError
| ZeroDivisionError
| ValueError
| IndexError.

Inductive res (A : Type) : Type :=
| Ok (a : A)
| Raise (x : exn).

Arguments Ok {A} a.
Arguments Raise {A} x.

(** A method of an object of type [S] that returns an [A]. *)
Definition M (S A : Type) : Type := S -> res A * S.

Definition ret {S A : Type} (a : A) : M S A := fun s => (Ok a, s).

Definition bind {S A B : Type} (m : M S A) (k : A -> M S B) : M S B :=
  fun s =>
    match m s with
    | (Ok a, s') => k a s'
    | (Raise x, s') => (Raise x, s')
    end.

Definition raise {S A : Type} (x : exn) : M S A := fun s => (Raise x, s).

Definition lift {S A : Type} (r : res A) : M S A := fun s => (r, s).

(** Reading an attribute of [self], and assigning to [self]. *)
Definition gets {S A : Type} (f : S -> A) : M S A := fun s => (Ok (f s), s).

Definition modify {S : Type} (f : S -> S) : M S unit := fun s => (Ok tt, f s).

(** [if b: body] with no [else]. *)
Definition when {S : Type} (b : bool) (body : M S unit) : M S unit :=
  if b then body else ret tt.

(** The object as a method call leaves it, and what the call returned. *)
Definition exec {S A : Type} (m : M S A) (s : S) : S := snd (m s).
Definition result {S A : Type} (m : M S A) (s : S) : res A := fst (m s).

(** [res] alone, for code that touches no object. *)
Definition rbind {A B : Type} (r : res A) (k : A -> res B) : res B :=
  match r with
  | Ok a => k a
  | Raise x => Raise x
  end.

(** A number with its dynamic type. *)
Inductive pynum : Type :=
| PInt (z : Z)
| PFloat (q : Q).

Definition to_Q (n : pynum) : Q :=
  match n with
  | PInt z => inject_Z z
  | PFloat q => q
  end.


(** [int(x)] of a float: truncation toward zero. *)
Definition int_of_float (q : Q) : Z := Z.quot (Qnum q) (Zpos (Qden q)).

(** Comparisons of numbers, as booleans. *)
Definition Qltb (a b : Q) : bool := negb (Qle_bool b a).
Definition Qgtb (a b : Q) : bool := Qltb b a.
Definition Qleb (a b : Q) : bool := Qle_bool a b.
Definition Qeqb (a b : Q) : bool := Qeq_bool a b.

(** [max(a, b)] of two arguments: the first one unless the second is greater. *)
Definition max2 (a b : Q) : Q := if Qgtb b a then b else a.

(** True division [a / b]. *)
Definition truediv {S : Type} (a b : Q) : M S Q :=
  if Qeqb b 0 then raise ZeroDivisionError else ret (a / b)%Q.

(** [l[i]] with Python's negative indices. *)
Definition index {A : Type} (l : list A) (i : Z) : res A :=
  let n := Z.of_nat (List.length l) in
  let j := if i <? 0 then i + n else i in
  if (0 <=? j) && (j <? n) then
    match nth_error l (Z.to_nat j) with
    | Some a => Ok a
    | None => Raise IndexError
    end
  else Raise IndexError.

(** *** Strings *)

(** [s.split(sep)] for a one-character separator. *)
Fixpoint split (sep : ascii) (s : string) : list string :=
  match s with
  | EmptyString => [EmptyString]
  | String c s' =>
      if Ascii.eqb c sep then EmptyString :: split sep s'
      else match split sep s' with
           | h :: t => String c h :: t
           | [] => [String c EmptyString]
           end
  end.

(** The characters [int] skips around a literal, among the code points
    below 256: tab to carriage return and the space, and the two characters
    above 127 that it first rewrites to a space (next line, no-break
    space).  The separators 28 to 31, which [str.strip] would remove, are
    not among them. *)
Definition is_space (c : ascii) : bool :=
  let n := nat_of_ascii c in
  ((9 <=? n) && (n <=? 13) || (n =? 32) || (n =? 133) || (n =? 160))%nat.

Definition is_digit (c : ascii) : bool :=
  let n := nat_of_ascii c in ((48 <=? n) && (n <=? 57))%nat.

Definition digit_val (c : ascii) : Z := Z.of_nat (nat_of_ascii c) - 48.

(** The skipping itself, at either end of the string: of the characters of
    [is_space], not the wider set of [str.strip]. *)
Fixpoint lstrip (s : string) : string :=
  match s with
  | EmptyString => EmptyString
  | String c s' => if is_space c then lstrip s' else s
  end.

Fixpoint rstrip (s : string) : string :=
  match s with
  | EmptyString => EmptyString
  | String c s' =>
      match rstrip s' with
      | EmptyString => if is_space c then EmptyString else String c EmptyString
      | r => String c r
      end
  end.

Definition strip (s : string) : string := lstrip (rstrip s).

(** The digit part of a decimal literal: digits, with single underscores
    between two digits.  [prev] tells whether the previous character was a
    digit. *)
Fixpoint digits (prev : bool) (acc : Z) (s : string) : option Z :=
  match s with
  | EmptyString => if prev then Some acc else None
  | String c s' =>
      if is_digit c then digits true (10 * acc + digit_val c) s'
      else if Ascii.eqb c "_" then
             if prev then digits false acc s' else None
           else None
  end.

(** [int(s)] of a string, base ten: surrounding whitespace (skipped by
    [int] itself, here with [strip] over [is_space]), an optional sign, the
    digit part. *)
Definition int_of_str (s : string) : res Z :=
  let body := strip s in
  let parsed :=
    match body with
    | String "+" r => digits false 0 r
    | String "-" r => option_map Z.opp (digits false 0 r)
    | _ => digits false 0 body
    end in
  match parsed with
  | Some z => Ok z
  | None => Raise ValueError
  end.

End Py.

Import Py.

Declare Scope py_scope.
Delimit Scope py_scope with py.
Notation "x <- m ;; k" := (bind m (fun x => k))
  (at level 61, m at next level, right associativity) : py_scope.
Notation "m ;; k" := (bind m (fun _ => k))
  (at level 61, right associativity) : py_scope.
Local Open Scope py_scope.

(** ** Engine.py *)

Module Engine.

Record t : Type := mk {
  name : string;
  manufacturer : string;
  description : string;
  cylinders : Z;
  displacement : Z;
  cylinder_bore : Q;
  piston_stroke : Q;
  compression_ratio : Q;
  max_rpm : Z;
  max_horsepower : Z;
  max_kw : Z;
  max_torque_nm : Z;
  RON : Z;
  ECS : string;
  peak_torque_rpm : Z;
  peak_hp_rpm : Z;
  clutch_response_time : Z;
  current_hp : pynum;
  current_torque_nm : Q;
  current_rpm : pynum;
  throttle : Q;
  throttle_decay_rate : Q;
  increase_rate : Q;
  base_increase_rate : Q;
  current_gear_ratio : option Q;
  clutched : bool;
  clutched_timestamp : option Z
}.

Definition set_current_hp (v : pynum) (e : t) : t :=
  mk (name e) (manufacturer e) (description e) (cylinders e)
    (displacement e) (cylinder_bore e) (piston_stroke e)
    (compression_ratio e) (max_rpm e) (max_horsepower e) (max_kw e)
    (max_torque_nm e) (RON e) (ECS e) (peak_torque_rpm e) (peak_hp_rpm e)
    (clutch_response_time e) v (current_torque_nm e) (current_rpm e)
    (throttle e) (throttle_decay_rate e) (increase_rate e)
    (base_increase_rate e) (current_gear_ratio e) (clutched e)
    (clutched_timestamp e).

Definition set_current_torque_nm (v : Q) (e : t) : t :=
  mk (name e) (manufacturer e) (description e) (cylinders e)
    (displacement e) (cylinder_bore e) (piston_stroke e)
    (compression_ratio e) (max_rpm e) (max_horsepower e) (max_kw e)
    (max_torque_nm e) (RON e) (ECS e) (peak_torque_rpm e) (peak_hp_rpm e)
    (clutch_response_time e) (current_hp e) v (current_rpm e) (throttle e)
    (throttle_decay_rate e) (increase_rate e) (base_increase_rate e)
    (current_gear_ratio e) (clutched e) (clutched_timestamp e).

Definition set_current_rpm (v : pynum) (e : t) : t :=
  mk (name e) (manufacturer e) (description e) (cylinders e)
    (displacement e) (cylinder_bore e) (piston_stroke e)
    (compression_ratio e) (max_rpm e) (max_horsepower e) (max_kw e)
    (max_torque_nm e) (RON e) (ECS e) (peak_torque_rpm e) (peak_hp_rpm e)
    (clutch_response_time e) (current_hp e) (current_torque_nm e) v
    (throttle e) (throttle_decay_rate e) (increase_rate e)
    (base_increase_rate e) (current_gear_ratio e) (clutched e)
    (clutched_timestamp e).

Definition set_throttle (v : Q) (e : t) : t :=
  mk (name e) (manufacturer e) (description e) (cylinders e)
    (displacement e) (cylinder_bore e) (piston_stroke e)
    (compression_ratio e) (max_rpm e) (max_horsepower e) (max_kw e)
    (max_torque_nm e) (RON e) (ECS e) (peak_torque_rpm e) (peak_hp_rpm e)
    (clutch_response_time e) (current_hp e) (current_torque_nm e)
    (current_rpm e) v (throttle_decay_rate e) (increase_rate e)
    (base_increase_rate e) (current_gear_ratio e) (clutched e)
    (clutched_timestamp e).

Definition set_increase_rate (v : Q) (e : t) : t :=
  mk (name e) (manufacturer e) (description e) (cylinders e)
    (displacement e) (cylinder_bore e) (piston_stroke e)
    (compression_ratio e) (max_rpm e) (max_horsepower e) (max_kw e)
    (max_torque_nm e) (RON e) (ECS e) (peak_torque_rpm e) (peak_hp_rpm e)
    (clutch_response_time e) (current_hp e) (current_torque_nm e)
    (current_rpm e) (throttle e) (throttle_decay_rate e) v
    (base_increase_rate e) (current_gear_ratio e) (clutched e)
    (clutched_timestamp e).

Definition set_current_gear_ratio (v : option Q) (e : t) : t :=
  mk (name e) (manufacturer e) (description e) (cylinders e)
    (displacement e) (cylinder_bore e) (piston_stroke e)
    (compression_ratio e) (max_rpm e) (max_horsepower e) (max_kw e)
    (max_torque_nm e) (RON e) (ECS e) (peak_torque_rpm e) (peak_hp_rpm e)
    (clutch_response_time e) (current_hp e) (current_torque_nm e)
    (current_rpm e) (throttle e) (throttle_decay_rate e) (increase_rate e)
    (base_increase_rate e) v (clutched e) (clutched_timestamp e).

Definition set_clutched (v : bool) (e : t) : t :=
  mk (name e) (manufacturer e) (description e) (cylinders e)
    (displacement e) (cylinder_bore e) (piston_stroke e)
    (compression_ratio e) (max_rpm e) (max_horsepower e) (max_kw e)
    (max_torque_nm e) (RON e) (ECS e) (peak_torque_rpm e) (peak_hp_rpm e)
    (clutch_response_time e) (current_hp e) (current_torque_nm e)
    (current_rpm e) (throttle e) (throttle_decay_rate e) (increase_rate e)
    (base_increase_rate e) (current_gear_ratio e) v (clutched_timestamp e).

Definition set_clutched_timestamp (v : option Z) (e : t) : t :=
  mk (name e) (manufacturer e) (description e) (cylinders e)
    (displacement e) (cylinder_bore e) (piston_stroke e)
    (compression_ratio e) (max_rpm e) (max_horsepower e) (max_kw e)
    (max_torque_nm e) (RON e) (ECS e) (peak_torque_rpm e) (peak_hp_rpm e)
    (clutch_response_time e) (current_hp e) (current_torque_nm e)
    (current_rpm e) (throttle e) (throttle_decay_rate e) (increase_rate e)
    (base_increase_rate e) (current_gear_ratio e) (clutched e) v.

Definition init (name manufacturer description : string)
    (cylinders displacement : Z)
    (cylinder_bore piston_stroke compression_ratio : Q)
    (max_rpm max_horsepower max_kw max_torque_nm ron : Z) (ecs : string)
    (peak_torque_rpm peak_hp_rpm clutch_response_time : Z) : t :=
  {| name := name;
     manufacturer := manufacturer;
     description := description;
     cylinders := cylinders;
     displacement := displacement;
     cylinder_bore := cylinder_bore;
     piston_stroke := piston_stroke;
     compression_ratio := compression_ratio;
     max_rpm := max_rpm;
     max_horsepower := max_horsepower;
     max_kw := max_kw;
     max_torque_nm := max_torque_nm;
     RON := ron;
     ECS := ecs;
     peak_torque_rpm := peak_torque_rpm;
     peak_hp_rpm := peak_hp_rpm;
     clutch_response_time := clutch_response_time;
     current_hp := PFloat 0;
     current_torque_nm := 0;
     current_rpm := PInt 700;
     throttle := 0;
     throttle_decay_rate := 2 # 100;
     increase_rate := 0;
     base_increase_rate := 3 # 100;
     current_gear_ratio := None;
     clutched := false;
     clutched_timestamp := None |}.

Definition calculate_increase_rate (gear_ratio : Q) : M t unit :=
  modify (set_current_gear_ratio (Some gear_ratio)) ;;
  base <- gets base_increase_rate ;;
  modify (set_increase_rate (base * gear_ratio / 2)%Q).

Definition calculate_current_hp : M t pynum :=
  rpm <- gets current_rpm ;;
  if Qeqb (to_Q rpm) 0 then ret (PFloat 0)
  else
    torque <- gets current_torque_nm ;;
    let current_torque_ft_lb := (torque * (737562 # 1000000))%Q in
    modify (set_current_hp
              (PFloat ((current_torque_ft_lb * to_Q rpm) / 5252)%Q)) ;;
    hp <- gets current_hp ;;
    max_hp <- gets max_horsepower ;;
    when (Qgtb (to_Q hp) (inject_Z max_hp))
      (modify (set_current_hp (PInt max_hp))) ;;
    gets current_hp.

Definition calculate_current_torque : M t Q :=
  rpm <- gets current_rpm ;;
  if Qeqb (to_Q rpm) 0 then ret 0%Q
  else
    peak <- gets peak_torque_rpm ;;
    max_torque <- gets max_torque_nm ;;
    (if Qleb (to_Q rpm) (inject_Z peak) then
       ramp <- truediv (to_Q rpm) (inject_Z peak) ;;
       modify (set_current_torque_nm (inject_Z max_torque * ramp)%Q)
     else
       top <- gets max_rpm ;;
       let rpm_range := top - peak in
       let rpm_post_peak := (to_Q rpm - inject_Z peak)%Q in
       frac <- truediv rpm_post_peak (inject_Z rpm_range) ;;
       let decrease_factor := (1 - frac ^ 2)%Q in
       modify (set_current_torque_nm
                 (inject_Z max_torque * decrease_factor)%Q)) ;;
    let min_torque := (inject_Z max_torque * (3 # 10))%Q in
    torque <- gets current_torque_nm ;;
    modify (set_current_torque_nm (max2 torque min_torque)) ;;
    gets current_torque_nm.

(** Lines 69-77 of [update_rpm]: the clutch and its dwell timer. *)
Definition update_rpm_clutch (now : Z) : M t unit :=
  engaged <- gets clutched ;;
  when engaged
    (modify (set_throttle 0%Q) ;;
     stamp <- gets clutched_timestamp ;;
     match stamp with
     | None => modify (set_clutched_timestamp (Some now))
     | Some since =>
         response <- gets clutch_response_time ;;
         when (now - since >? response * 1000)
           (modify (set_clutched false) ;;
            modify (set_clutched_timestamp None))
     end).

(** Lines 79-107 of [update_rpm]: the target, the step toward it, the
    bounds. *)
Definition update_rpm_speed : M t unit :=
  top <- gets max_rpm ;;
  pedal <- gets throttle ;;
  gear <- gets current_gear_ratio ;;
  match gear with
  | None => raise TypeError
  | Some ratio =>
      let target_rpm := int_of_float (inject_Z top * pedal * ratio)%Q in
      rpm <- gets current_rpm ;;
      (if Qgtb (inject_Z target_rpm) (to_Q rpm) then
         when (Qltb (to_Q rpm) (inject_Z target_rpm))
           (rate <- gets increase_rate ;;
            let increase := ((inject_Z target_rpm - to_Q rpm) * rate)%Q in
            frac <- truediv (to_Q rpm) (inject_Z top) ;;
            let decay_factor := (1 - frac ^ 2)%Q in
            modify (set_current_rpm
                      (PFloat (to_Q rpm + increase * decay_factor)%Q)) ;;
            rpm' <- gets current_rpm ;;
            when (Qgtb (to_Q rpm') (inject_Z target_rpm))
              (modify (set_current_rpm (PInt target_rpm))))
       else
         when (Qgtb (to_Q rpm) 700)
           (engaged <- gets clutched ;;
            rate <- gets increase_rate ;;
            let decay_rate :=
              if engaged
              then ((to_Q rpm - inject_Z target_rpm) * rate)%Q
              else ((to_Q rpm - inject_Z target_rpm) * rate / 10)%Q in
            modify (set_current_rpm (PFloat (to_Q rpm - decay_rate)%Q)) ;;
            rpm' <- gets current_rpm ;;
            when (Qltb (to_Q rpm') 700)
              (modify (set_current_rpm (PInt 700))))) ;;
      rpm <- gets current_rpm ;;
      when (Qgtb (to_Q rpm) (inject_Z top))
        (modify (set_current_rpm (PInt top)))
  end.

Definition update_rpm (now : Z) : M t unit :=
  update_rpm_clutch now ;;
  update_rpm_speed ;;
  _ <- calculate_current_torque ;;
  _ <- calculate_current_hp ;;
  ret tt.

(** The driving loop's assignment [engine.throttle = slider_value]. *)
Definition set_pedal (v : Q) : M t unit := modify (set_throttle v).

(** [n] successive ticks, the clock read as [clock k] in tick [k]; the
    first exception ends the run. *)
Fixpoint ticks (clock : nat -> Z) (n : nat) : M t unit :=
  match n with
  | O => ret tt
  | S n' => ticks clock n' ;; update_rpm (clock n')
  end.

End Engine.

(** ** Gearbox.py *)

Module Gearbox.

Record t : Type := mk {
  gear_ratios : list Q;
  current_gear : Z;
  tire_radius_meters : Q;
  final_drive_ratio : Q
}.

Definition set_current_gear (v : Z) (g : t) : t :=
  mk (gear_ratios g) v (tire_radius_meters g) (final_drive_ratio g).

(** [get_wheel_radius]: the body of the [try], whose [ValueError] and
    [IndexError] are raised again as [ValueError].  An unpacking of
    [split]'s list into two names raises [ValueError] unless the list has
    exactly two elements.  The two sidewall intermediates are computed and
    dropped. *)
Definition get_wheel_radius (tire_size : string) : res Q :=
  match split "/" tire_size with
  | [width_str; aspect_ratio_and_diameter] =>
      match split "R" aspect_ratio_and_diameter with
      | [aspect_ratio_str; diameter_str] =>
          rbind (int_of_str width_str) (fun width =>
          rbind (int_of_str aspect_ratio_str) (fun aspect_ratio =>
          rbind (int_of_str diameter_str) (fun diameter =>
          let sidewall_height_mm :=
            (inject_Z (width * aspect_ratio) / 100)%Q in
          let sidewall_height_m := (sidewall_height_mm / 1000)%Q in
          let wheel_radius_m :=
            ((inject_Z diameter * (254 # 10) / 2) / 1000)%Q in
          Ok wheel_radius_m)))
      | _ => Raise ValueError
      end
  | _ => Raise ValueError
  end.

Definition init (gear_ratios : list Q) (tire_size : string)
    (final_drive_ratio : Q) : res t :=
  rbind (get_wheel_radius tire_size) (fun radius =>
  Ok (mk gear_ratios 1 radius final_drive_ratio)).

Definition shift_up : M t unit :=
  cur <- gets current_gear ;;
  ratios <- gets gear_ratios ;;
  when (cur <? Z.of_nat (List.length ratios))
    (modify (set_current_gear (cur + 1))).

Definition shift_down : M t unit :=
  cur <- gets current_gear ;;
  when (cur >? 1)
    (modify (set_current_gear (cur - 1))).

Definition get_current_ratio : M t Q :=
  ratios <- gets gear_ratios ;;
  cur <- gets current_gear ;;
  lift (index ratios (cur - 1)).

Definition get_speed (engine_rpm : pynum) : M t Q :=
  ratios <- gets gear_ratios ;;
  cur <- gets current_gear ;;
  gear_ratio <- lift (index ratios (cur - 1)) ;;
  radius <- gets tire_radius_meters ;;
  final <- gets final_drive_ratio ;;
  speed_kph <- truediv
    (to_Q engine_rpm * radius * 2 * (314159 # 100000) * 60)%Q
    (final * gear_ratio * 1000)%Q ;;
  ret speed_kph.

(** The shift commands of the driving loop. *)
Inductive shift : Type := Up | Down.

Definition do_shift (c : shift) : M t unit :=
  match c with
  | Up => shift_up
  | Down => shift_down
  end.

Definition shifts (cs : list shift) (g : t) : t :=
  fold_left (fun g c => exec (do_shift c) g) cs g.

Definition top_gear (g : t) : Z := Z.of_nat (List.length (gear_ratios g)).

End Gearbox.

(** ** main.py: the driving loop *)

(** The part of [main] that drives the two models: the push of the first
    ratio (line 114) and, in every pass of the loop, the handling of the
    events, the tick and the reading of the speed (lines 117-144).  The
    events of [pygame.event.get()] and the clock are inputs; the drawing
    that follows in each pass reads the two objects and is not modelled. *)
Module Main.

(** The objects and the variable of [main] that the loop assigns. *)
Record world : Type := mkw {
  engine : Engine.t;
  gearbox : Gearbox.t;
  slider_value : Q
}.

Definition set_engine (e : Engine.t) (w : world) : world :=
  mkw e (gearbox w) (slider_value w).

Definition set_gearbox (g : Gearbox.t) (w : world) : world :=
  mkw (engine w) g (slider_value w).

Definition set_slider_value (v : Q) (w : world) : world :=
  mkw (engine w) (gearbox w) v.

(** A method call on [engine], and one on [gearbox]. *)
Definition on_engine {A : Type} (m : M Engine.t A) : M world A :=
  fun w => let (r, e') := m (engine w) in (r, set_engine e' w).

Definition on_gearbox {A : Type} (m : M Gearbox.t A) : M world A :=
  fun w => let (r, g') := m (gearbox w) in (r, set_gearbox g' w).

(** [min(a, b)] of two arguments: the first one unless the second is
    smaller. *)
Definition min2 (a b : Q) : Q := if Qltb b a then b else a.

Definition slider_x : Z := 50.
Definition slider_y : Z := 500.
Definition slider_width : Z := 300.
Definition slider_height : Z := 20.

Inductive key : Type := K_UP | K_DOWN | K_other.

(** The events the loop tells apart: [pos] is the pointer position and
    [buttons] the state of the three buttons. *)
Inductive event : Type :=
| QUIT
| MOUSEBUTTONDOWN (pos : Z * Z)
| MOUSEMOTION (pos : Z * Z) (buttons : Z * Z * Z)
| KEYDOWN (k : key)
| other_event.

(** Lines 122-126, and again 128-132: a pointer on the slider sets the
    throttle. *)
Definition slide (pos : Z * Z) : M world unit :=
  let (mouse_x, mouse_y) := pos in
  when ((slider_y <=? mouse_y) && (mouse_y <=? slider_y + slider_height)
        && ((slider_x <=? mouse_x) && (mouse_x <=? slider_x + slider_width)))
    (let value :=
       (inject_Z (mouse_x - slider_x) / inject_Z slider_width)%Q in
     let value := min2 (max2 value 0) 1 in
     modify (set_slider_value value) ;;
     on_engine (modify (Engine.set_throttle value))).

(** One event of the [for] loop; [true] when [main] returns. *)
Definition handle (ev : event) : M world bool :=
  match ev with
  | QUIT => ret true
  | MOUSEBUTTONDOWN pos => slide pos ;; ret false
  | MOUSEMOTION pos (button0, _, _) =>
      (if button0 =? 1 then slide pos else ret tt) ;; ret false
  | KEYDOWN K_UP =>
      on_gearbox Gearbox.shift_up ;;
      ratio <- on_gearbox Gearbox.get_current_ratio ;;
      on_engine (Engine.calculate_increase_rate ratio) ;;
      ret false
  | KEYDOWN K_DOWN =>
      on_gearbox Gearbox.shift_down ;;
      ratio <- on_gearbox Gearbox.get_current_ratio ;;
      on_engine (Engine.calculate_increase_rate ratio) ;;
      ret false
  | KEYDOWN K_other => ret false
  | other_event => ret false
  end.

Fixpoint handle_all (events : list event) : M world bool :=
  match events with
  | [] => ret false
  | ev :: rest =>
      quit <- handle ev ;;
      if quit then ret true else handle_all rest
  end.

(** One pass of the [while] loop, up to the speed it displays; [None] when
    [main] returned on a [QUIT]. *)
Definition pass (events : list event) (now : Z) : M world (option Q) :=
  quit <- handle_all events ;;
  if quit then ret None
  else
    on_engine (Engine.update_rpm now) ;;
    rpm <- gets (fun w => Engine.current_rpm (engine w)) ;;
    speed_kph <- on_gearbox (Gearbox.get_speed rpm) ;;
    ret (Some speed_kph).

(** Line 114. *)
Definition start : M world unit :=
  ratio <- on_gearbox Gearbox.get_current_ratio ;;
  on_engine (Engine.calculate_increase_rate ratio).

(** The passes of the loop over the given inputs, with the speeds they
    displayed; a [QUIT] ends the loop. *)
Fixpoint loop (inputs : list (list event * Z)) : M world (list Q) :=
  match inputs with
  | [] => ret []
  | (events, now) :: rest =>
      shown <- pass events now ;;
      match shown with
      | None => ret []
      | Some speed_kph =>
          speeds <- loop rest ;;
          ret (speed_kph :: speeds)
      end
  end.

End Main.

(** ** The objects of [main.py] *)

(** The engine the driving loop builds (a Toyota M15A-FXE); the clutch
    response time, which the call in [main.py] leaves out, is taken to be one
    second. *)
Definition yaris_engine : Engine.t :=
  Engine.init "M15A-FXE" "Toyota" "3 Cylinder Engine" 3 1490
    (805 # 10) (976 # 10) 14 5500 91 67 120 91 "EFI" 4800 5500 1000.

(** Its gearbox, with the radius of a 16 inch rim. *)
Definition yaris_gearbox : Gearbox.t :=
  Gearbox.mk
    [3545 # 1000; 1913 # 1000; 1310 # 1000; 1027 # 1000; 850 # 1000]%Q
    1 (2032 # 10000) (4294 # 1000).

(** The engine in first gear, as the loop has it before its first tick, with
    the throttle at [pedal]. *)
Definition yaris_in_first (pedal : Q) : Engine.t :=
  exec (Engine.calculate_increase_rate (3545 # 1000) ;;
        Engine.set_pedal pedal) yaris_engine.

(** The same engine at 3000 rpm with the clutch engaged since time 0. *)
Definition yaris_declutched : Engine.t :=
  Engine.set_clutched_timestamp (Some 0)
    (Engine.set_clutched true
       (Engine.set_current_rpm (PInt 3000) (yaris_in_first 1))).

(** The engine in first gear at 3000 rpm with the throttle closed and the
    clutch released. *)
Definition yaris_coasting : Engine.t :=
  Engine.set_current_rpm (PInt 3000) (yaris_in_first 0).

(** The two objects as the loop finds them in its first pass, with the
    throttle closed. *)
Definition yaris_world : Main.world :=
  Main.mkw (yaris_in_first 0) yaris_gearbox 0.

(** The gearbox as its constructor builds it from "195/55R16", the radius
    left as computed. *)
Definition yaris_gearbox_built : Gearbox.t :=
  Gearbox.mk
    [3545 # 1000; 1913 # 1000; 1310 # 1000; 1027 # 1000; 850 # 1000]%Q
    1 ((inject_Z 16 * (254 # 10) / 2) / 1000)%Q (4294 # 1000).

(** ** Vocabulary of the properties *)

Import Engine Gearbox.

(** The target of [update_rpm] in gear [ratio]. *)
Definition target_of (e : Engine.t) (ratio : Q) : Z :=
  int_of_float (inject_Z (max_rpm e) * throttle e * ratio)%Q.

(** The speed after an unbounded step up: the term of lines 86-90. *)
Definition raised (top tgt rate rpm : Q) : Q :=
  (rpm + (tgt - rpm) * rate * (1 - (rpm / top) ^ 2))%Q.

(** Lines 86-93: the step up, stopped at the target. *)
Definition risen (e : Engine.t) (target : Z) : pynum :=
  let rpm := to_Q (current_rpm e) in
  let raw :=
    (rpm + (inject_Z target - rpm) * increase_rate e
           * (1 - (rpm / inject_Z (max_rpm e)) ^ 2))%Q in
  if Qgtb raw (inject_Z target) then PInt target else PFloat raw.

(** Lines 97-103: the step down, stopped at idle. *)
Definition fallen (e : Engine.t) (target : Z) : pynum :=
  let rpm := to_Q (current_rpm e) in
  let decay_rate :=
    if clutched e
    then ((rpm - inject_Z target) * increase_rate e)%Q
    else ((rpm - inject_Z target) * increase_rate e / 10)%Q in
  let raw := (rpm - decay_rate)%Q in
  if Qltb raw 700 then PInt 700 else PFloat raw.

(** Lines 106-107: the bound at [max_rpm]. *)
Definition redlined (e : Engine.t) (v : pynum) : pynum :=
  if Qgtb (to_Q v) (inject_Z (max_rpm e)) then PInt (max_rpm e) else v.

(** The engine at idle in gear [ratio], as the constructor and
    [calculate_increase_rate] leave it. *)
Definition at_idle (e : Engine.t) (ratio : Q) : Prop :=
  current_rpm e = PInt 700 /\
  clutched e = false /\
  current_gear_ratio e = Some ratio /\
  (increase_rate e == base_increase_rate e * ratio / 2)%Q /\
  (0 < base_increase_rate e)%Q.

(** The engine between two ticks of the driving loop: a gear ratio has been
    pushed and the rate derived from it, the throttle is not negative, and
    the speed is between idle and [max_rpm]. *)
Definition in_service (e : Engine.t) : Prop :=
  (exists ratio : Q,
     current_gear_ratio e = Some ratio /\
     increase_rate e == base_increase_rate e * ratio / 2)%Q /\
  (0 <= base_increase_rate e)%Q /\
  (0 <= throttle e)%Q /\
  (700 <= to_Q (current_rpm e) <= inject_Z (max_rpm e))%Q.

(** What ticking with the clutch released leaves alone. *)
Definition same_setup (e s : Engine.t) : Prop :=
  max_rpm s = max_rpm e /\
  throttle s = throttle e /\
  current_gear_ratio s = current_gear_ratio e /\
  increase_rate s = increase_rate e /\
  base_increase_rate s = base_increase_rate e /\
  clutched s = false.

(** The gear is one of the gears the gearbox has. *)
Definition gear_in_bounds (g : Gearbox.t) : Prop :=
  1 <= current_gear g <= top_gear g.

(** Every character of [s] satisfies [p]. *)
Fixpoint all_chars (p : ascii -> bool) (s : string) : bool :=
  match s with
  | EmptyString => true
  | String c s' => p c && all_chars p s'
  end.

(** The characters of a decimal literal, and those [int] accepts around
    it. *)
Definition literal_char (c : ascii) : bool :=
  is_digit c || Ascii.eqb c "_" || Ascii.eqb c "+" || Ascii.eqb c "-".

Definition int_char (c : ascii) : bool := is_space c || literal_char c.

(** The method [m] leaves the attribute [f] as it was. *)
Definition preserves {S A B : Type} (f : S -> A) (m : M S B) : Prop :=
  forall s, f (exec m s) = f s.

(** From a state in [P], the call [m] returns, and leaves a state in [R]. *)
Definition total {S A : Type} (P : S -> Prop) (m : M S A)
    (R : A -> S -> Prop) : Prop :=
  forall s, P s -> exists a s', m s = (Ok a, s') /\ R a s'.

(** The torque curve of [calculate_current_torque] at speed [rpm], before
    the floor (lines 146-154). *)
Definition torque_curve (e : Engine.t) (rpm : Q) : Q :=
  if Qleb rpm (inject_Z (peak_torque_rpm e))
  then (inject_Z (max_torque_nm e) * (rpm / inject_Z (peak_torque_rpm e)))%Q
  else (inject_Z (max_torque_nm e)
        * (1 - ((rpm - inject_Z (peak_torque_rpm e))
                / inject_Z (max_rpm e - peak_torque_rpm e)) ^ 2))%Q.

(** The torque it stores: the curve, floored (lines 157-158). *)
Definition torque_at (e : Engine.t) (rpm : Q) : Q :=
  max2 (torque_curve e rpm) (inject_Z (max_torque_nm e) * (3 # 10))%Q.

(** The horsepower [calculate_current_hp] stores for a torque and a speed
    (lines 124-131). *)
Definition hp_at (e : Engine.t) (torque rpm : Q) : pynum :=
  let raw := ((torque * (737562 # 1000000)) * rpm / 5252)%Q in
  if Qgtb raw (inject_Z (max_horsepower e))
  then PInt (max_horsepower e)
  else PFloat raw.

(** Some tick among the first [n] reads the clock more than
    clutch_response_time milliseconds after [since]. *)
Definition dwell_over (e : Engine.t) (clock : nat -> Z) (since : Z)
    (n : nat) : bool :=
  existsb (fun k => clock k - since >? clutch_response_time e * 1000)
    (seq 0 n).

(** The two objects of the driving loop between two passes: the engine is
    in service with the throttle at most 1, the gear is one the gearbox has,
    the engine holds the ratio of that gear, and no ratio makes the
    denominator of the speed 0. *)
Definition roadworthy (w : Main.world) : Prop :=
  in_service (Main.engine w) /\
  (throttle (Main.engine w) <= 1)%Q /\
  gear_in_bounds (Main.gearbox w) /\
  (exists ratio : Q,
     index (gear_ratios (Main.gearbox w))
       (current_gear (Main.gearbox w) - 1) = Ok ratio /\
     current_gear_ratio (Main.engine w) = Some ratio) /\
  Forall (fun ratio =>
            ~ (final_drive_ratio (Main.gearbox w) * ratio * 1000 == 0)%Q)
    (gear_ratios (Main.gearbox w)).

(** What a pass that displays a speed shows: the speed of the gearbox at
    the speed the engine was left with. *)
Definition shows (shown : option Q) (w : Main.world) : Prop :=
  match shown with
  | None => True
  | Some speed_kph =>
      exists ratio : Q,
        current_gear_ratio (Main.engine w) = Some ratio /\
        (speed_kph ==
         (to_Q (current_rpm (Main.engine w))
          * tire_radius_meters (Main.gearbox w)
          * 2 * (314159 # 100000) * 60)
         / (final_drive_ratio (Main.gearbox w) * ratio * 1000))%Q
  end.

(** *** The literals of [int] *)

Local Open Scope string_scope.

(** The whitespace of [int], by code point. *)
Definition int_whitespace : list nat := [9; 10; 11; 12; 13; 32; 133; 160]%nat.

(** A string of such whitespace only. *)
Fixpoint blank (s : string) : Prop :=
  match s with
  | EmptyString => True
  | String c s' => In (nat_of_ascii c) int_whitespace /\ blank s'
  end.

(** The digit part of Python's grammar, digit (["_"] digit)*. *)
Inductive digit_part : string -> Prop :=
| digit_one (c : ascii) :
    is_digit c = true -> digit_part (String c EmptyString)
| digit_more (c : ascii) (s : string) :
    is_digit c = true -> digit_part s -> digit_part (String c s)
| digit_group (c : ascii) (s : string) :
    is_digit c = true -> digit_part s ->
    digit_part (String c (String "_" s)).

(** The number its digits spell, the underscores passed over. *)
Fixpoint digits_value (acc : Z) (s : string) : Z :=
  match s with
  | EmptyString => acc
  | String c s' =>
      if is_digit c then digits_value (10 * acc + digit_val c) s'
      else digits_value acc s'
  end.

(** The strings [int] reads in base ten, with the number read: whitespace,
    an optional sign, a digit part, whitespace. *)
Definition int_literal (s : string) (z : Z) : Prop :=
  exists l body r : string,
    blank l /\ blank r /\ digit_part body /\
    ((s = l ++ body ++ r /\ z = digits_value 0 body) \/
     (s = l ++ "+" ++ body ++ r /\ z = digits_value 0 body) \/
     (s = l ++ "-" ++ body ++ r /\ z = - digits_value 0 body)).

(** The string is not empty and its last character is not whitespace. *)
Fixpoint ends_solid (s : string) : bool :=
  match s with
  | EmptyString => false
  | String c EmptyString => negb (is_space c)
  | String _ s' => ends_solid s'
  end.

(** The sign and the digit part, as [int_of_str] reads them off the
    stripped string. *)
Definition read_signed (b : string) : option Z :=
  match b with
  | String "+" r => digits false 0 r
  | String "-" r => option_map Z.opp (digits false 0 r)
  | _ => digits false 0 b
  end.

Local Close Scope string_scope.

(** ** Properties *)

(** Unfolding of the monad's operations. *)
Ltac py_unfold :=
  cbv [bind ret raise lift gets modify when exec result rbind truediv] in *.

(** *** Comparisons *)

Lemma Qltb_lt (a b : Q) : Qltb a b = true <-> (a < b)%Q.
Proof.
  unfold Qltb. rewrite negb_true_iff, <- not_true_iff_false, Qle_bool_iff.
  split; [apply Qnot_le_lt | apply Qlt_not_le].
Qed.

Lemma Qltb_ge (a b : Q) : Qltb a b = false <-> (b <= a)%Q.
Proof.
  unfold Qltb. rewrite negb_false_iff. apply Qle_bool_iff.
Qed.

Lemma Qgtb_gt (a b : Q) : Qgtb a b = true <-> (b < a)%Q.
Proof. apply Qltb_lt. Qed.

Lemma Qgtb_le (a b : Q) : Qgtb a b = false <-> (a <= b)%Q.
Proof. apply Qltb_ge. Qed.

Lemma Qleb_le (a b : Q) : Qleb a b = true <-> (a <= b)%Q.
Proof. apply Qle_bool_iff. Qed.

Lemma Qleb_gt (a b : Q) : Qleb a b = false <-> (b < a)%Q.
Proof.
  unfold Qleb. rewrite <- not_true_iff_false, Qle_bool_iff.
  split; [apply Qnot_le_lt | apply Qlt_not_le].
Qed.

Lemma Qeqb_eq (a b : Q) : Qeqb a b = true <-> (a == b)%Q.
Proof. apply Qeq_bool_iff. Qed.

Lemma Qeqb_neq (a b : Q) : Qeqb a b = false <-> ~ (a == b)%Q.
Proof.
  unfold Qeqb. rewrite <- not_true_iff_false, Qeq_bool_iff. tauto.
Qed.

Lemma max2_spec (a b : Q) :
  (a <= max2 a b)%Q /\ (b <= max2 a b)%Q /\ (max2 a b = a \/ max2 a b = b).
Proof.
  unfold max2. destruct (Qgtb b a) eqn:E.
  - apply Qgtb_gt in E. repeat split; auto; lra.
  - apply Qgtb_le in E. repeat split; auto; lra.
Qed.

(** *** Gearbox *)

Section Shifting.

Variable g : Gearbox.t.

Lemma shift_down_at_bottom :
  current_gear g = 1 -> shift_down g = (Ok tt, g).
Proof.
  intros H. unfold shift_down. py_unfold. rewrite H. reflexivity.
Qed.

Lemma shift_up_at_top :
  current_gear g = top_gear g -> shift_up g = (Ok tt, g).
Proof.
  intros H. unfold shift_up, top_gear in *. py_unfold.
  rewrite <- H, Z.ltb_irrefl. reflexivity.
Qed.

Lemma shift_down_above_bottom :
  1 < current_gear g ->
  shift_down g = (Ok tt, set_current_gear (current_gear g - 1) g).
Proof.
  intros H. unfold shift_down. py_unfold.
  destruct (Z.gtb_spec (current_gear g) 1); [reflexivity | lia].
Qed.

Lemma shift_up_below_top :
  current_gear g < top_gear g ->
  shift_up g = (Ok tt, set_current_gear (current_gear g + 1) g).
Proof.
  intros H. unfold shift_up, top_gear in *. py_unfold.
  destruct (Z.ltb_spec (current_gear g)
              (Z.of_nat (List.length (gear_ratios g))));
    [reflexivity | lia].
Qed.

End Shifting.

Lemma do_shift_in_bounds (c : shift) (g : Gearbox.t) :
  gear_in_bounds g -> gear_in_bounds (exec (do_shift c) g).
Proof.
  unfold gear_in_bounds. intros H. destruct c; simpl.
  - destruct (Z.eq_dec (current_gear g) (top_gear g)) as [E | E].
    + unfold exec. rewrite shift_up_at_top by assumption. simpl. lia.
    + unfold exec. rewrite shift_up_below_top by lia.
      simpl. unfold top_gear in *. simpl. lia.
  - destruct (Z.eq_dec (current_gear g) 1) as [E | E].
    + unfold exec. rewrite shift_down_at_bottom by assumption. simpl. lia.
    + unfold exec. rewrite shift_down_above_bottom by lia.
      simpl. unfold top_gear in *. simpl. lia.
Qed.

Lemma shifts_in_bounds (cs : list shift) :
  forall g, gear_in_bounds g -> gear_in_bounds (shifts cs g).
Proof.
  induction cs as [| c cs IH]; intros g H; simpl.
  - exact H.
  - apply IH, do_shift_in_bounds, H.
Qed.

Lemma do_shift_ratios (c : shift) (g : Gearbox.t) :
  gear_ratios (exec (do_shift c) g) = gear_ratios g.
Proof.
  destruct c; simpl; unfold shift_up, shift_down; py_unfold.
  - destruct (_ <? _); reflexivity.
  - destruct (_ >? _); reflexivity.
Qed.

Lemma shifts_ratios (cs : list shift) :
  forall g, gear_ratios (shifts cs g) = gear_ratios g.
Proof.
  induction cs as [| c cs IH]; intros g; simpl.
  - reflexivity.
  - unfold shifts in IH. rewrite IH. apply do_shift_ratios.
Qed.

(** C7.  With a non-empty list of gear ratios, [shift_down] leaves the
    gearbox as it is in gear 1 and [shift_up] leaves it as it is in the top
    gear; in between they move [current_gear] by exactly one and touch
    nothing else; and from gear 1 every sequence of shifts keeps
    [current_gear] between 1 and the number of ratios. *)
Theorem shift_keeps_gear_in_bounds (g : Gearbox.t) :
  gear_ratios g <> [] ->
  (current_gear g = 1 -> shift_down g = (Ok tt, g)) /\
  (current_gear g = Z.of_nat (List.length (gear_ratios g)) ->
   shift_up g = (Ok tt, g)) /\
  (1 < current_gear g ->
   shift_down g = (Ok tt, set_current_gear (current_gear g - 1) g)) /\
  (current_gear g < Z.of_nat (List.length (gear_ratios g)) ->
   shift_up g = (Ok tt, set_current_gear (current_gear g + 1) g)) /\
  (current_gear g = 1 ->
   forall cs : list shift,
     1 <= current_gear (shifts cs g)
       <= Z.of_nat (List.length (gear_ratios g))).
Proof.
  intros Hne. split; [| split; [| split; [| split]]].
  - apply shift_down_at_bottom.
  - apply shift_up_at_top.
  - apply shift_down_above_bottom.
  - apply shift_up_below_top.
  - intros H1 cs. rewrite <- (shifts_ratios cs g).
    apply (shifts_in_bounds cs g). unfold gear_in_bounds, top_gear.
    destruct (gear_ratios g) as [| r rs]; [contradiction |].
    simpl List.length. lia.
Qed.

Lemma shift_keeps_gear_in_bounds_witness :
  gear_ratios yaris_gearbox <> [] /\
  forall cs : list shift, 1 <= current_gear (shifts cs yaris_gearbox) <= 5.
Proof.
  assert (Hne : gear_ratios yaris_gearbox <> []) by discriminate.
  split; [exact Hne |].
  exact (proj2 (proj2 (proj2 (proj2
    (shift_keeps_gear_in_bounds yaris_gearbox Hne)))) eq_refl).
Defined.

(** *** Frames: the attributes a method leaves alone *)

Section Frames.

Context {S A : Type} (f : S -> A).

Lemma preserves_ret {B} (b : B) : preserves f (ret b).
Proof. intros s. reflexivity. Qed.

Lemma preserves_raise {B} (x : exn) : preserves f (@raise S B x).
Proof. intros s. reflexivity. Qed.

Lemma preserves_gets {B} (h : S -> B) : preserves f (gets h).
Proof. intros s. reflexivity. Qed.

Lemma preserves_lift {B} (r : res B) : preserves f (lift r).
Proof. intros s. reflexivity. Qed.

Lemma preserves_truediv (a b : Q) : preserves f (truediv a b).
Proof. intros s. unfold truediv. destruct (Qeqb b 0); reflexivity. Qed.

Lemma preserves_modify (h : S -> S) :
  (forall s, f (h s) = f s) -> preserves f (modify h).
Proof. intros H s. apply H. Qed.

Lemma preserves_bind {B C} (m : M S B) (k : B -> M S C) :
  preserves f m -> (forall b, preserves f (k b)) -> preserves f (bind m k).
Proof.
  intros Hm Hk s. unfold exec, bind. specialize (Hm s). unfold exec in Hm.
  destruct (m s) as [[b | x] s']; simpl in *.
  - rewrite <- Hm. apply Hk.
  - exact Hm.
Qed.

Lemma preserves_when (b : bool) (m : M S unit) :
  preserves f m -> preserves f (when b m).
Proof. intros H. destruct b; [exact H | apply preserves_ret]. Qed.

Lemma preserves_if {B} (b : bool) (m1 m2 : M S B) :
  preserves f m1 -> preserves f m2 -> preserves f (if b then m1 else m2).
Proof. destruct b; auto. Qed.

End Frames.

Create HintDb frame.
#[local] Hint Resolve preserves_ret preserves_raise preserves_gets
  preserves_lift preserves_truediv preserves_bind preserves_when
  preserves_if : frame.

(** Walks through a method, with [H] for its assignments. *)
Ltac frame_by H :=
  repeat first
    [ apply preserves_bind; [| intro]
    | apply preserves_when
    | apply preserves_if
    | apply preserves_modify; intro; apply H
    | match goal with
      | |- preserves _ (match ?x with _ => _ end) => destruct x
      end
    | solve [auto with frame] ].

Lemma exec_bind {S A B} (m : M S A) (k : A -> M S B) (s : S) :
  exec (bind m k) s =
  match result m s with
  | Ok a => exec (k a) (exec m s)
  | Raise _ => exec m s
  end.
Proof.
  unfold exec, result, bind. destruct (m s) as [[a | x] s']; reflexivity.
Qed.

(** *** Torque and horsepower *)

Lemma inject_Z_nonzero (z : Z) : z <> 0 -> Qeqb (inject_Z z) 0 = false.
Proof.
  intros H. apply Qeqb_neq. intros E. apply H.
  apply (eq_sym) in E. unfold Qeq in E. simpl in E. lia.
Qed.

Lemma inject_Z_lt (a b : Z) : (inject_Z a < inject_Z b)%Q <-> a < b.
Proof. rewrite <- Zlt_Qlt. tauto. Qed.

Lemma inject_Z_le (a b : Z) : (inject_Z a <= inject_Z b)%Q <-> a <= b.
Proof. rewrite <- Zle_Qle. tauto. Qed.

(** C3.  [calculate_current_torque] at a speed of 0 returns 0 and stores
    nothing.  At a speed in (0, max_rpm], with 0 < peak_torque_rpm < max_rpm,
    it stores and returns the larger of the curve and 30% of max_torque_nm,
    where the curve is max_torque_nm * (rpm / peak_torque_rpm) up to the peak
    and max_torque_nm * (1 - ((rpm - peak) / (max_rpm - peak))^2) above it. *)
Theorem calculate_current_torque_curve (e : Engine.t) :
  let rpm := to_Q (current_rpm e) in
  let peak := inject_Z (peak_torque_rpm e) in
  let top := inject_Z (max_rpm e) in
  let max_torque := inject_Z (max_torque_nm e) in
  let floor := (max_torque * (3 # 10))%Q in
  (rpm == 0 -> calculate_current_torque e = (Ok 0%Q, e))%Q /\
  (0 < rpm <= top -> 0 < peak < top ->
   exists torque : Q,
     calculate_current_torque e = (Ok torque, set_current_torque_nm torque e) /\
     (rpm <= peak -> torque = max2 (max_torque * (rpm / peak)) floor) /\
     (peak < rpm ->
      torque =
      max2 (max_torque *
            (1 - ((rpm - peak)
                  / inject_Z (max_rpm e - peak_torque_rpm e)) ^ 2)) floor) /\
     floor <= torque)%Q.
Proof.
  cbv zeta. split.
  - intros H0. unfold calculate_current_torque. py_unfold.
    apply Qeqb_eq in H0. rewrite H0. reflexivity.
  - intros [Hpos Htop] [Hpeak Hlt].
    assert (Hn0 : Qeqb (to_Q (current_rpm e)) 0 = false)
      by (apply Qeqb_neq; intros E; lra).
    assert (Hp0 : Qeqb (inject_Z (peak_torque_rpm e)) 0 = false)
      by (apply Qeqb_neq; intros E; lra).
    assert (Hr0 : Qeqb (inject_Z (max_rpm e - peak_torque_rpm e)) 0 = false).
    { apply inject_Z_nonzero. rewrite <- Zlt_Qlt in Hlt. lia. }
    unfold calculate_current_torque. py_unfold. rewrite Hn0.
    destruct (Qleb (to_Q (current_rpm e)) (inject_Z (peak_torque_rpm e)))
      eqn:Hc.
    + rewrite Hp0. simpl. eexists. split; [reflexivity |].
      apply Qleb_le in Hc. repeat split.
      * intros Hgt. lra.
      * apply max2_spec.
    + rewrite Hr0. simpl. eexists. split; [reflexivity |].
      apply Qleb_gt in Hc. repeat split.
      * intros Hle. lra.
      * apply max2_spec.
Qed.

Lemma calculate_current_torque_curve_witness :
  exists torque : Q,
    calculate_current_torque (yaris_in_first 1) =
    (Ok torque, set_current_torque_nm torque (yaris_in_first 1)) /\
    (torque == 36)%Q.
Proof.
  destruct (proj2 (calculate_current_torque_curve (yaris_in_first 1)))
    as (torque & Hrun & Hramp & _ & _).
  - split; [reflexivity | discriminate].
  - split; reflexivity.
  - exists torque. split; [exact Hrun |].
    rewrite Hramp by discriminate. reflexivity.
Defined.

(** C4.  [calculate_current_hp] at a speed of 0 returns 0 and stores
    nothing.  At a positive speed it stores and returns
    (current_torque_nm * 0.737562) * current_rpm / 5252, or max_horsepower
    when that is greater: the stored horsepower never exceeds
    max_horsepower. *)
Theorem calculate_current_hp_formula (e : Engine.t) :
  let rpm := to_Q (current_rpm e) in
  let raw :=
    ((current_torque_nm e * (737562 # 1000000)) * rpm / 5252)%Q in
  let ceiling := inject_Z (max_horsepower e) in
  (rpm == 0 -> calculate_current_hp e = (Ok (PFloat 0), e))%Q /\
  (0 < rpm ->
   exists hp : pynum,
     calculate_current_hp e = (Ok hp, set_current_hp hp e) /\
     (raw <= ceiling -> hp = PFloat raw) /\
     (ceiling < raw -> hp = PInt (max_horsepower e)) /\
     to_Q hp <= ceiling)%Q.
Proof.
  cbv zeta. split.
  - intros H0. unfold calculate_current_hp. py_unfold.
    apply Qeqb_eq in H0. rewrite H0. reflexivity.
  - intros Hpos.
    assert (Hn0 : Qeqb (to_Q (current_rpm e)) 0 = false)
      by (apply Qeqb_neq; intros E; lra).
    unfold calculate_current_hp. py_unfold. rewrite Hn0. simpl.
    match goal with |- context [Qgtb ?a ?b] => destruct (Qgtb a b) eqn:Hc end.
    + apply Qgtb_gt in Hc. eexists. split; [reflexivity |]. simpl.
      repeat split; intros; try lra.
    + apply Qgtb_le in Hc. eexists. split; [reflexivity |]. simpl.
      repeat split; intros; try lra.
Qed.

Lemma calculate_current_hp_formula_witness :
  let e := exec calculate_current_torque (yaris_in_first 1) in
  exists hp : pynum,
    calculate_current_hp e = (Ok hp, set_current_hp hp e) /\
    (to_Q hp <= 91)%Q.
Proof.
  intros e.
  destruct (proj2 (calculate_current_hp_formula e))
    as (hp & Hrun & _ & _ & Hle).
  - reflexivity.
  - exists hp. split; [exact Hrun | exact Hle].
Defined.

(** *** The parts of [update_rpm] *)

Lemma preserves_torque {A} (f : Engine.t -> A) :
  (forall v e, f (set_current_torque_nm v e) = f e) ->
  preserves f calculate_current_torque.
Proof. intros H. unfold calculate_current_torque. frame_by H. Qed.

Lemma preserves_hp {A} (f : Engine.t -> A) :
  (forall v e, f (set_current_hp v e) = f e) ->
  preserves f calculate_current_hp.
Proof. intros H. unfold calculate_current_hp. frame_by H. Qed.

Lemma preserves_speed {A} (f : Engine.t -> A) :
  (forall v e, f (set_current_rpm v e) = f e) ->
  preserves f update_rpm_speed.
Proof. intros H. unfold update_rpm_speed. frame_by H. Qed.

Lemma update_rpm_clutch_returns (now : Z) (e : Engine.t) :
  result (update_rpm_clutch now) e = Ok tt.
Proof.
  unfold update_rpm_clutch, result. py_unfold.
  destruct (clutched e); [| reflexivity]. simpl.
  destruct (clutched_timestamp e); [| reflexivity].
  destruct (_ >? _); reflexivity.
Qed.

(** What the call leaves in an attribute that only the clutch part writes. *)
Lemma update_rpm_frame {A} (f : Engine.t -> A) (now : Z) (e : Engine.t) :
  (forall v e, f (set_current_rpm v e) = f e) ->
  (forall v e, f (set_current_torque_nm v e) = f e) ->
  (forall v e, f (set_current_hp v e) = f e) ->
  f (exec (update_rpm now) e) = f (exec (update_rpm_clutch now) e).
Proof.
  intros Hr Ht Hh. unfold update_rpm.
  rewrite exec_bind, update_rpm_clutch_returns.
  assert (Hrest : preserves f
            (update_rpm_speed ;;
             _ <- calculate_current_torque ;;
             _ <- calculate_current_hp ;; ret tt)).
  { apply preserves_bind; [apply preserves_speed, Hr | intro].
    apply preserves_bind; [apply preserves_torque, Ht | intro].
    apply preserves_bind; [apply preserves_hp, Hh | intro].
    apply preserves_ret. }
  apply Hrest.
Qed.

(** The speed the call leaves is the one its speed part computes. *)
Lemma update_rpm_current_rpm (now : Z) (e : Engine.t) :
  current_rpm (exec (update_rpm now) e) =
  current_rpm (exec update_rpm_speed (exec (update_rpm_clutch now) e)).
Proof.
  unfold update_rpm.
  rewrite exec_bind, update_rpm_clutch_returns.
  rewrite exec_bind.
  destruct (result update_rpm_speed _); [| reflexivity].
  assert (Hrest : preserves current_rpm
            (_ <- calculate_current_torque ;;
             _ <- calculate_current_hp ;; ret tt)).
  { apply preserves_bind;
      [apply preserves_torque; reflexivity | intro].
    apply preserves_bind; [apply preserves_hp; reflexivity | intro].
    apply preserves_ret. }
  apply Hrest.
Qed.

(** The clutch part, case by case. *)
Lemma update_rpm_clutch_released (now : Z) (e : Engine.t) :
  clutched e = false -> exec (update_rpm_clutch now) e = e.
Proof.
  intros H. unfold update_rpm_clutch, exec. py_unfold. rewrite H. reflexivity.
Qed.

Lemma update_rpm_clutch_first (now : Z) (e : Engine.t) :
  clutched e = true -> clutched_timestamp e = None ->
  exec (update_rpm_clutch now) e =
  set_clutched_timestamp (Some now) (set_throttle 0%Q e).
Proof.
  intros H1 H2. unfold update_rpm_clutch, exec. py_unfold.
  rewrite H1. simpl. rewrite H2. reflexivity.
Qed.

Lemma update_rpm_clutch_dwell (now since : Z) (e : Engine.t) :
  clutched e = true -> clutched_timestamp e = Some since ->
  exec (update_rpm_clutch now) e =
  if now - since >? clutch_response_time e * 1000
  then set_clutched_timestamp None (set_clutched false (set_throttle 0%Q e))
  else set_throttle 0%Q e.
Proof.
  intros H1 H2. unfold update_rpm_clutch, exec. py_unfold.
  rewrite H1. simpl. rewrite H2. simpl.
  destruct (_ >? _); reflexivity.
Qed.

(** C10.  Whatever the clutch response time, a call of [update_rpm] that
    finds the clutch flag set and no engagement timestamp records the
    timestamp and leaves the flag set: the flag is still set when the next
    call begins, so the clutch stays engaged over at least two consecutive
    calls. *)
Theorem clutch_first_tick_only_stamps (e : Engine.t) (now : Z) :
  clutched e = true ->
  clutched_timestamp e = None ->
  clutched (exec (update_rpm now) e) = true /\
  clutched_timestamp (exec (update_rpm now) e) = Some now.
Proof.
  intros H1 H2.
  rewrite (update_rpm_frame clutched), (update_rpm_frame clutched_timestamp)
    by reflexivity.
  rewrite (update_rpm_clutch_first now e H1 H2). simpl. auto.
Qed.

Lemma clutch_first_tick_only_stamps_witness :
  let e :=
    set_clutched true
      (exec (calculate_increase_rate (3545 # 1000))
         (Engine.init "M15A-FXE" "Toyota" "3 Cylinder Engine" 3 1490
            (805 # 10) (976 # 10) 14 5500 91 67 120 91 "EFI" 4800 5500 0)) in
  clutched (exec (update_rpm 0) e) = true /\
  clutched_timestamp (exec (update_rpm 0) e) = Some 0.
Proof.
  intros e.
  exact (clutch_first_tick_only_stamps e 0 eq_refl eq_refl).
Defined.

(** *** The speed part, case by case *)

Section SpeedPart.

Variables (e : Engine.t) (ratio : Q).
Hypothesis Hgear : current_gear_ratio e = Some ratio.

Let rpm : Q := to_Q (current_rpm e).
Let target : Z := target_of e ratio.

Lemma update_rpm_speed_rises :
  (rpm < inject_Z target)%Q -> max_rpm e <> 0 ->
  update_rpm_speed e =
  (Ok tt, set_current_rpm (redlined e (risen e target)) e).
Proof.
  subst rpm target. intros Hlt Htop.
  unfold update_rpm_speed, redlined, risen, target_of in *. py_unfold.
  rewrite Hgear.
  rewrite (proj2 (Qgtb_gt _ _) Hlt), (proj2 (Qltb_lt _ _) Hlt).
  rewrite (inject_Z_nonzero _ Htop). simpl.
  match goal with |- context [Qgtb ?a ?b] => destruct (Qgtb a b) end; simpl;
  match goal with |- context [Qgtb ?a ?b] => destruct (Qgtb a b) end;
  reflexivity.
Qed.

Lemma update_rpm_speed_falls :
  (inject_Z target <= rpm)%Q -> (700 < rpm)%Q ->
  update_rpm_speed e =
  (Ok tt, set_current_rpm (redlined e (fallen e target)) e).
Proof.
  subst rpm target. intros Hle Hidle.
  unfold update_rpm_speed, redlined, fallen, target_of in *. py_unfold.
  rewrite Hgear.
  rewrite (proj2 (Qgtb_le _ _) Hle), (proj2 (Qgtb_gt _ _) Hidle). simpl.
  destruct (clutched e); simpl;
  match goal with |- context [Qltb ?a ?b] => destruct (Qltb a b) end; simpl;
  match goal with |- context [Qgtb ?a ?b] => destruct (Qgtb a b) end;
  reflexivity.
Qed.

Lemma update_rpm_speed_rests :
  (inject_Z target <= rpm)%Q -> (rpm <= 700)%Q ->
  update_rpm_speed e =
  (Ok tt,
   if Qgtb rpm (inject_Z (max_rpm e))
   then set_current_rpm (PInt (max_rpm e)) e else e).
Proof.
  subst rpm target. intros Hle Hidle.
  unfold update_rpm_speed, target_of in *. py_unfold.
  rewrite Hgear.
  rewrite (proj2 (Qgtb_le _ _) Hle), (proj2 (Qgtb_le _ _) Hidle). simpl.
  match goal with |- context [Qgtb ?a ?b] => destruct (Qgtb a b) end;
  reflexivity.
Qed.

End SpeedPart.

Lemma update_rpm_speed_no_gear (e : Engine.t) :
  current_gear_ratio e = None -> update_rpm_speed e = (Raise TypeError, e).
Proof.
  intros H. unfold update_rpm_speed. py_unfold. rewrite H. reflexivity.
Qed.

(** With the throttle closed the target is 0. *)
Lemma target_of_closed_throttle (e : Engine.t) (ratio : Q) :
  throttle e = 0%Q -> target_of e ratio = 0.
Proof.
  intros H. unfold target_of, int_of_float. rewrite H. simpl.
  rewrite Z.mul_0_r. reflexivity.
Qed.

(** The values of the two bounds. *)
Lemma redlined_value (e : Engine.t) (v : pynum) :
  (to_Q (redlined e v) == Qmin (inject_Z (max_rpm e)) (to_Q v))%Q.
Proof.
  unfold redlined. destruct (Qgtb _ _) eqn:E.
  - apply Qgtb_gt in E. simpl. rewrite Q.min_l; [reflexivity | lra].
  - apply Qgtb_le in E. rewrite Q.min_r; [reflexivity | lra].
Qed.

(** Division by a literal, as [lra] reads it. *)
Ltac q_literals :=
  unfold Qdiv in *;
  change (/ 10)%Q with (1 # 10)%Q in *;
  change (/ 2)%Q with (1 # 2)%Q in *.

Lemma fallen_value (e : Engine.t) (target : Z) :
  let rpm := to_Q (current_rpm e) in
  let k := if clutched e then 1%Q else (1 # 10)%Q in
  (to_Q (fallen e target) ==
   Qmax 700 (rpm - (rpm - inject_Z target) * increase_rate e * k))%Q.
Proof.
  cbv zeta. unfold fallen.
  destruct (clutched e);
    match goal with |- context [Qltb ?a ?b] => destruct (Qltb a b) eqn:E end;
    [apply Qltb_lt in E | apply Qltb_ge in E
    | apply Qltb_lt in E | apply Qltb_ge in E]; simpl; q_literals.
  - rewrite Q.max_l; [reflexivity | lra].
  - rewrite Q.max_r; [lra | lra].
  - rewrite Q.max_l; [reflexivity | lra].
  - rewrite Q.max_r; [lra | lra].
Qed.

(** C5, as the code has it.  Every call of [update_rpm] that finds the
    clutch flag set closes the throttle, with or without a gear ratio and
    whatever the speed.  It clears the flag and the timestamp when a
    timestamp is there and more than clutch_response_time milliseconds have
    passed since; otherwise the flag stays and the timestamp is the recorded
    one, or the present time if none was recorded.  With a gear ratio set, a
    speed above 700 then decays by (current_rpm - 0) * increase_rate * k,
    bounded at 700 below and at max_rpm above, with k = 1 while the flag
    stays set and k = 1/10, the rate of a released clutch, in the call that
    clears it; a speed from 0 to 700 is only bounded at max_rpm. *)
Theorem clutched_tick (e : Engine.t) (now : Z) :
  clutched e = true ->
  let rpm := to_Q (current_rpm e) in
  let cleared :=
    match clutched_timestamp e with
    | Some since => now - since >? clutch_response_time e * 1000
    | None => false
    end in
  let k := if cleared then (1 # 10)%Q else 1%Q in
  let e' := exec (update_rpm now) e in
  throttle e' = 0%Q /\
  clutched e' = negb cleared /\
  clutched_timestamp e' =
    (if cleared then None
     else match clutched_timestamp e with
          | Some since => Some since
          | None => Some now
          end) /\
  (forall ratio : Q,
     current_gear_ratio e = Some ratio ->
     (700 < rpm)%Q ->
     (to_Q (current_rpm e') ==
      Qmin (inject_Z (max_rpm e))
           (Qmax 700 (rpm - (rpm - 0) * increase_rate e * k)))%Q) /\
  (forall ratio : Q,
     current_gear_ratio e = Some ratio ->
     (0 <= rpm)%Q -> (rpm <= 700)%Q ->
     (to_Q (current_rpm e') == Qmin (inject_Z (max_rpm e)) rpm)%Q).
Proof.
  intros Hc. cbv zeta.
  rewrite (update_rpm_frame throttle), (update_rpm_frame clutched),
    (update_rpm_frame clutched_timestamp) by reflexivity.
  rewrite update_rpm_current_rpm.
  assert (Hstep : forall (e1 : Engine.t) (ratio : Q),
            throttle e1 = 0%Q ->
            current_gear_ratio e1 = Some ratio ->
            current_rpm e1 = current_rpm e ->
            max_rpm e1 = max_rpm e ->
            increase_rate e1 = increase_rate e ->
            (700 < to_Q (current_rpm e))%Q ->
            (to_Q (current_rpm (exec update_rpm_speed e1)) ==
             Qmin (inject_Z (max_rpm e))
               (Qmax 700
                  (to_Q (current_rpm e)
                   - (to_Q (current_rpm e) - 0) * increase_rate e
                     * (if clutched e1 then 1 else 1 # 10))))%Q).
  { intros e1 ratio Ht Hg Hr Hm Hi Hidle. unfold exec.
    pose proof (update_rpm_speed_falls e1 ratio Hg) as Hf. cbv zeta in Hf.
    rewrite (target_of_closed_throttle e1 ratio Ht), Hr in Hf.
    rewrite Hf; [| change (inject_Z 0) with 0%Q; lra | exact Hidle].
    cbn [snd current_rpm set_current_rpm].
    rewrite redlined_value, Hm, fallen_value, Hr, Hi. reflexivity. }
  assert (Hrest : forall (e1 : Engine.t) (ratio : Q),
            throttle e1 = 0%Q ->
            current_gear_ratio e1 = Some ratio ->
            current_rpm e1 = current_rpm e ->
            max_rpm e1 = max_rpm e ->
            (0 <= to_Q (current_rpm e))%Q ->
            (to_Q (current_rpm e) <= 700)%Q ->
            (to_Q (current_rpm (exec update_rpm_speed e1)) ==
             Qmin (inject_Z (max_rpm e)) (to_Q (current_rpm e)))%Q).
  { intros e1 ratio Ht Hg Hr Hm Hlow Hidle. unfold exec.
    pose proof (update_rpm_speed_rests e1 ratio Hg) as Hf. cbv zeta in Hf.
    rewrite (target_of_closed_throttle e1 ratio Ht), Hr in Hf.
    rewrite Hf; [| change (inject_Z 0) with 0%Q; lra | exact Hidle].
    cbn [snd]. clear Hf. rewrite Hm.
    destruct (Qgtb _ _) eqn:E.
    - apply Qgtb_gt in E. cbn [current_rpm set_current_rpm to_Q].
      rewrite Q.min_l; [reflexivity | lra].
    - apply Qgtb_le in E. rewrite Hr.
      rewrite Q.min_r; [reflexivity | lra]. }
  destruct (clutched_timestamp e) as [since |] eqn:Hts.
  - rewrite (update_rpm_clutch_dwell now since e Hc Hts).
    destruct (_ >? _).
    + split; [reflexivity | split; [reflexivity | split; [reflexivity |]]].
      split; intros ratio Hgear.
      * exact (Hstep (set_clutched_timestamp None
                        (set_clutched false (set_throttle 0%Q e)))
                 ratio eq_refl Hgear eq_refl eq_refl eq_refl).
      * exact (Hrest (set_clutched_timestamp None
                        (set_clutched false (set_throttle 0%Q e)))
                 ratio eq_refl Hgear eq_refl eq_refl).
    + split; [reflexivity | split; [exact Hc | split; [exact Hts |]]].
      split; intros ratio Hgear.
      * pose proof (Hstep (set_throttle 0%Q e) ratio
                      eq_refl Hgear eq_refl eq_refl eq_refl) as H.
        cbn [clutched set_throttle] in H. rewrite Hc in H. exact H.
      * exact (Hrest (set_throttle 0%Q e) ratio
                 eq_refl Hgear eq_refl eq_refl).
  - rewrite (update_rpm_clutch_first now e Hc Hts).
    split; [reflexivity | split; [exact Hc | split; [reflexivity |]]].
    split; intros ratio Hgear.
    + pose proof (Hstep (set_clutched_timestamp (Some now)
                           (set_throttle 0%Q e)) ratio
                    eq_refl Hgear eq_refl eq_refl eq_refl) as H.
      cbn [clutched set_throttle set_clutched_timestamp] in H.
      rewrite Hc in H. exact H.
    + exact (Hrest (set_clutched_timestamp (Some now) (set_throttle 0%Q e))
               ratio eq_refl Hgear eq_refl eq_refl).
Qed.

Lemma clutched_tick_witness :
  let e' := exec (update_rpm 500000) yaris_declutched in
  throttle e' = 0%Q /\
  clutched e' = true /\
  (to_Q (current_rpm e') == 3000 - (3000 - 0) * (53175 # 1000000) * 1)%Q.
Proof.
  destruct (clutched_tick yaris_declutched 500000 eq_refl)
    as (Hthr & Hflag & _ & Hrpm & _).
  split; [exact Hthr | split; [exact Hflag |]].
  rewrite (Hrpm (3545 # 1000) eq_refl eq_refl). reflexivity.
Defined.

(** C5 as stated fails in the call that clears the flag: the clutch of
    [yaris_declutched] was engaged at time 0 with a response time of one
    second; the call two seconds later finds the flag set, clears it before
    the decay step, and the speed decays with k = 1/10, from 3000 to
    2984.0475, where k = 1 would give 2840.475. *)
Lemma clutch_clearing_tick_decays_slowly :
  let e := yaris_declutched in
  let e' := exec (update_rpm 2000000) e in
  clutched e = true /\
  clutched e' = false /\
  (to_Q (current_rpm e') == 29840475 # 10000)%Q /\
  ~ (to_Q (current_rpm e') == 3000 - (3000 - 0) * increase_rate e * 1)%Q.
Proof.
  cbv zeta. split; [reflexivity | split; [reflexivity | split]].
  - vm_compute. reflexivity.
  - intros H. vm_compute in H. discriminate H.
Qed.

(** *** Calls that return *)

Lemma total_bind {S A B} (P : S -> Prop) (m : M S A) (R : A -> S -> Prop)
    (k : A -> M S B) (T : B -> S -> Prop) :
  total P m R -> (forall a, total (R a) (k a) T) -> total P (bind m k) T.
Proof.
  intros Hm Hk s Hs. destruct (Hm s Hs) as (a & s1 & E1 & H1).
  destruct (Hk a s1 H1) as (b & s2 & E2 & H2).
  exists b, s2. unfold bind. rewrite E1. auto.
Qed.

Lemma total_ret {S A} (P : S -> Prop) (a : A) :
  total P (ret a) (fun _ s => P s).
Proof. intros s Hs. exists a, s. auto. Qed.

Lemma int_of_float_pos (q : Q) : 0 < int_of_float q -> (0 < q)%Q.
Proof.
  unfold int_of_float, Qlt. destruct q as [n d]. simpl. intros H.
  rewrite Z.mul_1_r.
  destruct (Z.lt_ge_cases 0 n) as [Hn | Hn]; [exact Hn |].
  exfalso.
  assert (Hq : 0 <= Z.quot (- n) (Z.pos d))
    by (apply Z.quot_pos; lia).
  rewrite Z.quot_opp_l in Hq by lia. lia.
Qed.

Lemma square_ratio_le_1 (x m : Q) :
  (0 <= x -> x <= m -> 0 < m -> 0 <= 1 - (x / m) ^ 2)%Q.
Proof.
  intros H0 Hle Hm. simpl.
  assert (H1 : (0 <= x / m)%Q).
  { apply Qle_shift_div_l; [exact Hm | lra]. }
  assert (H2 : (x / m <= 1)%Q).
  { apply Qle_shift_div_r; [exact Hm | lra]. }
  nra.
Qed.

Lemma risen_value (e : Engine.t) (target : Z) :
  let rpm := to_Q (current_rpm e) in
  (to_Q (risen e target) ==
   Qmin (inject_Z target)
     (rpm + (inject_Z target - rpm) * increase_rate e
            * (1 - (rpm / inject_Z (max_rpm e)) ^ 2)))%Q.
Proof.
  cbv zeta. unfold risen.
  match goal with |- context [Qgtb ?a ?b] => destruct (Qgtb a b) eqn:E end.
  - apply Qgtb_gt in E. cbn [to_Q]. rewrite Q.min_l; [reflexivity | lra].
  - apply Qgtb_le in E. cbn [to_Q]. rewrite Q.min_r; [reflexivity | lra].
Qed.

(** A rate derived from a gear ratio is not negative when the target is
    above idle. *)
Lemma rate_nonneg_when_rising (e : Engine.t) (ratio : Q) :
  (increase_rate e == base_increase_rate e * ratio / 2)%Q ->
  (0 <= base_increase_rate e)%Q ->
  (0 <= throttle e)%Q ->
  0 < max_rpm e ->
  0 < target_of e ratio ->
  (0 <= increase_rate e)%Q.
Proof.
  intros Hrate Hbase Hthr Htop Htarget.
  apply int_of_float_pos in Htarget.
  assert (Hm : (0 < inject_Z (max_rpm e))%Q)
    by (change 0%Q with (inject_Z 0); rewrite <- Zlt_Qlt; exact Htop).
  assert (Hratio : (0 <= ratio)%Q).
  { destruct (Qlt_le_dec ratio 0) as [Hneg | Hpos]; [| exact Hpos].
    exfalso.
    assert (0 <= inject_Z (max_rpm e) * throttle e)%Q by nra.
    nra. }
  rewrite Hrate. q_literals. nra.
Qed.

Lemma in_service_top (e : Engine.t) : in_service e -> 700 <= max_rpm e.
Proof.
  intros (_ & _ & _ & Hlo & Hhi).
  apply inject_Z_le. change (inject_Z 700) with 700%Q. lra.
Qed.

Lemma update_rpm_clutch_in_service (now : Z) :
  total in_service (update_rpm_clutch now) (fun _ => in_service).
Proof.
  intros e He. exists tt, (exec (update_rpm_clutch now) e). split.
  - pose proof (update_rpm_clutch_returns now e) as H.
    unfold result, exec in *. destruct (update_rpm_clutch now e) as [r s].
    simpl in *. congruence.
  - destruct (clutched e) eqn:Hc.
    + destruct (clutched_timestamp e) as [since |] eqn:Hts.
      * rewrite (update_rpm_clutch_dwell now since e Hc Hts).
        destruct He as (Hg & Hb & _ & Hr).
        destruct (_ >? _); (split; [exact Hg | split; [exact Hb |]]);
          (split; [apply Qle_refl | exact Hr]).
      * rewrite (update_rpm_clutch_first now e Hc Hts).
        destruct He as (Hg & Hb & _ & Hr).
        split; [exact Hg | split; [exact Hb |]].
        split; [apply Qle_refl | exact Hr].
    + rewrite (update_rpm_clutch_released now e Hc). exact He.
Qed.

Lemma update_rpm_speed_in_service :
  total in_service update_rpm_speed (fun _ => in_service).
Proof.
  intros e He. pose proof (in_service_top e He) as Htop.
  destruct He as ((ratio & Hgear & Hrate) & Hbase & Hthr & Hlo & Hhi).
  assert (Hm : (700 <= inject_Z (max_rpm e))%Q) by lra.
  destruct (Qlt_le_dec (to_Q (current_rpm e)) (inject_Z (target_of e ratio)))
    as [Hrise | Hstay].
  - (* the step up *)
    exists tt. eexists. split.
    + apply (update_rpm_speed_rises e ratio Hgear Hrise). lia.
    + split; [exists ratio; split; assumption |].
      split; [exact Hbase |]. split; [exact Hthr |].
      cbn [current_rpm set_current_rpm max_rpm].
      rewrite redlined_value, risen_value.
      assert (Hpos : 0 < target_of e ratio).
      { apply inject_Z_lt. change (inject_Z 0) with 0%Q. lra. }
      pose proof (rate_nonneg_when_rising e ratio Hrate Hbase Hthr
                    ltac:(lia) Hpos) as Hr.
      pose proof (square_ratio_le_1 (to_Q (current_rpm e))
                    (inject_Z (max_rpm e)) ltac:(lra) Hhi ltac:(lra)) as Hd.
      set (decay := (1 - (to_Q (current_rpm e) / inject_Z (max_rpm e)) ^ 2)%Q)
        in *.
      assert (Hinc : (0 <= (inject_Z (target_of e ratio)
                            - to_Q (current_rpm e))
                           * increase_rate e * decay)%Q).
      { apply Qmult_le_0_compat; [apply Qmult_le_0_compat |]; lra. }
      split.
      * apply Q.min_glb; [exact Hm |]. apply Q.min_glb; lra.
      * apply Q.le_min_l.
  - destruct (Qlt_le_dec 700 (to_Q (current_rpm e))) as [Hfall | Hrest].
    + (* the step down *)
      exists tt. eexists. split.
      * apply (update_rpm_speed_falls e ratio Hgear Hstay Hfall).
      * split; [exists ratio; split; assumption |].
        split; [exact Hbase |]. split; [exact Hthr |].
        cbn [current_rpm set_current_rpm max_rpm].
        rewrite redlined_value, fallen_value. split.
        -- apply Q.min_glb; [exact Hm | apply Q.le_max_l].
        -- apply Q.le_min_l.
    + (* at idle *)
      exists tt, e. split.
      * rewrite (update_rpm_speed_rests e ratio Hgear Hstay Hrest).
        rewrite (proj2 (Qgtb_le _ _) Hhi). reflexivity.
      * split; [exists ratio; split; assumption |]. auto.
Qed.

Lemma calculate_current_torque_in_service :
  total in_service calculate_current_torque (fun _ => in_service).
Proof.
  intros e He. pose proof He as (_ & _ & _ & Hlo & Hhi).
  assert (Hn0 : Qeqb (to_Q (current_rpm e)) 0 = false)
    by (apply Qeqb_neq; intros E; lra).
  unfold calculate_current_torque. py_unfold. rewrite Hn0.
  destruct (Qleb (to_Q (current_rpm e)) (inject_Z (peak_torque_rpm e)))
    eqn:Hc.
  - apply Qleb_le in Hc.
    assert (Hp0 : Qeqb (inject_Z (peak_torque_rpm e)) 0 = false)
      by (apply Qeqb_neq; intros E; lra).
    rewrite Hp0. simpl. eexists. eexists. split; [reflexivity | exact He].
  - apply Qleb_gt in Hc.
    assert (Hr0 : Qeqb (inject_Z (max_rpm e - peak_torque_rpm e)) 0 = false).
    { apply inject_Z_nonzero.
      assert (peak_torque_rpm e < max_rpm e) by (apply inject_Z_lt; lra).
      lia. }
    rewrite Hr0. simpl. eexists. eexists. split; [reflexivity | exact He].
Qed.

Lemma calculate_current_hp_in_service :
  total in_service calculate_current_hp (fun _ => in_service).
Proof.
  intros e He. unfold calculate_current_hp. py_unfold.
  destruct (Qeqb (to_Q (current_rpm e)) 0).
  - eexists. eexists. split; [reflexivity | exact He].
  - simpl.
    match goal with |- context [Qgtb ?a ?b] => destruct (Qgtb a b) end;
      (eexists; eexists; split; [reflexivity | exact He]).
Qed.

Lemma update_rpm_in_service (now : Z) :
  total in_service (update_rpm now) (fun _ => in_service).
Proof.
  unfold update_rpm.
  eapply total_bind; [apply update_rpm_clutch_in_service | intros ?].
  eapply total_bind; [apply update_rpm_speed_in_service | intros ?].
  eapply total_bind; [apply calculate_current_torque_in_service | intros ?].
  eapply total_bind; [apply calculate_current_hp_in_service | intros ?].
  apply total_ret.
Qed.


(** The state of the driving loop before its first tick is in service. *)
Lemma in_service_at_start (e : Engine.t) (ratio pedal : Q) :
  (0 <= base_increase_rate e)%Q ->
  (700 <= to_Q (current_rpm e) <= inject_Z (max_rpm e))%Q ->
  (0 <= pedal)%Q ->
  in_service (exec (calculate_increase_rate ratio ;; set_pedal pedal) e).
Proof.
  intros Hb Hr Hp. unfold in_service. simpl.
  split; [exists ratio; split; reflexivity | auto].
Qed.






(** *** Road speed *)

(** C8, as the code has it.  When the current gear selects a ratio and
    final_drive_ratio * ratio * 1000 is not 0, [get_speed] returns
    (engine_rpm * tire_radius_meters * 2 * 3.14159 * 60)
    / (final_drive_ratio * ratio * 1000) and leaves the gearbox as it was. *)
Theorem get_speed_formula (g : Gearbox.t) (engine_rpm : pynum) (ratio : Q) :
  index (gear_ratios g) (current_gear g - 1) = Ok ratio ->
  ~ (final_drive_ratio g * ratio * 1000 == 0)%Q ->
  get_speed engine_rpm g =
  (Ok ((to_Q engine_rpm * tire_radius_meters g * 2 * (314159 # 100000) * 60)
       / (final_drive_ratio g * ratio * 1000))%Q,
   g).
Proof.
  intros Hidx Hden. unfold get_speed. py_unfold. rewrite Hidx.
  rewrite (proj2 (Qeqb_neq _ _) Hden). reflexivity.
Qed.

Lemma get_speed_formula_witness :
  exists v : Q,
    get_speed (PInt 3000) yaris_gearbox = (Ok v, yaris_gearbox) /\
    (1509 # 100 < v < 1510 # 100)%Q.
Proof.
  eexists. split.
  - apply (get_speed_formula yaris_gearbox (PInt 3000) (3545 # 1000)).
    + reflexivity.
    + discriminate.
  - split; reflexivity.
Defined.

(** C8 as stated fails in its example: at 3000 rpm, ratio 3.545, final
    drive 4.294 and radius 0.2032 m the speed is below 15.10 km/h, more than
    0.7 km/h short of 15.85. *)
Lemma get_speed_example_is_not_15_85 :
  exists v : Q,
    result (get_speed (PInt 3000)) yaris_gearbox = Ok v /\
    gear_ratios yaris_gearbox =
      (3545 # 1000 :: tl (gear_ratios yaris_gearbox))%Q /\
    current_gear yaris_gearbox = 1 /\
    final_drive_ratio yaris_gearbox = (4294 # 1000)%Q /\
    tire_radius_meters yaris_gearbox = (2032 # 10000)%Q /\
    (v < 1510 # 100)%Q /\
    (7 # 10 < Qabs (v - (1585 # 100)))%Q.
Proof.
  eexists. split; [reflexivity |].
  repeat split; reflexivity.
Qed.

(** The speed reading never changes the gearbox, whatever it returns. *)
Lemma get_speed_pure (g : Gearbox.t) (engine_rpm : pynum) :
  exec (get_speed engine_rpm) g = g.
Proof.
  unfold get_speed, exec. py_unfold.
  destruct (index _ _); [| reflexivity].
  destruct (Qeqb _ _); reflexivity.
Qed.

(** *** Construction *)

(** C9, as the code has it.  Construction checks nothing but the tire-size
    string.  The engine's constructor stores max_rpm and peak_torque_rpm as
    given, whatever their sign.  The gearbox's constructor returns a gearbox
    holding the list of ratios as given, empty or not, whenever
    [get_wheel_radius] accepts the tire size, and raises what
    [get_wheel_radius] raises otherwise.  A gearbox built with no ratio
    raises [IndexError] at every reading of its ratio and of the road speed.
    A value the specification excludes does not by itself make a later call
    raise: the engine built with max_rpm = 0, otherwise the data of
    [main.py] and a clutch response time of 1000 ms, passes its first tick
    in first gear. *)
Theorem construction_checks_only_the_tire_size :
  (forall (name manufacturer description : string)
          (cylinders displacement : Z)
          (cylinder_bore piston_stroke compression_ratio : Q)
          (max_rpm max_horsepower max_kw max_torque_nm ron : Z) (ecs : string)
          (peak_torque_rpm peak_hp_rpm clutch_response_time : Z),
     let e :=
       Engine.init name manufacturer description cylinders displacement
         cylinder_bore piston_stroke compression_ratio max_rpm max_horsepower
         max_kw max_torque_nm ron ecs peak_torque_rpm peak_hp_rpm
         clutch_response_time in
     Engine.max_rpm e = max_rpm /\
     Engine.peak_torque_rpm e = peak_torque_rpm /\
     Engine.current_rpm e = PInt 700 /\
     Engine.current_gear_ratio e = None) /\
  (forall (ratios : list Q) (tire_size : string) (final : Q),
     (forall radius : Q,
        get_wheel_radius tire_size = Ok radius ->
        Gearbox.init ratios tire_size final =
        Ok (Gearbox.mk ratios 1 radius final)) /\
     (forall x : exn,
        get_wheel_radius tire_size = Raise x ->
        Gearbox.init ratios tire_size final = Raise x)) /\
  (forall (tire_size : string) (final radius : Q) (engine_rpm : pynum),
     get_wheel_radius tire_size = Ok radius ->
     exists g : Gearbox.t,
       Gearbox.init [] tire_size final = Ok g /\
       result get_current_ratio g = Raise IndexError /\
       result (get_speed engine_rpm) g = Raise IndexError) /\
  (let e :=
     Engine.init "M15A-FXE" "Toyota" "3 Cylinder Engine" 3 1490
       (805 # 10) (976 # 10) 14 0 91 67 120 91 "EFI" 4800 5500 1000 in
   max_rpm e = 0 /\
   result (calculate_increase_rate (3545 # 1000) ;; update_rpm 0) e =
   Ok tt).
Proof.
  split; [| split; [| split]].
  - intros. subst e. repeat split.
  - intros ratios tire_size final. unfold Gearbox.init.
    split; intros v H; rewrite H; reflexivity.
  - intros tire_size final radius engine_rpm H.
    exists (Gearbox.mk [] 1 radius final).
    unfold Gearbox.init. rewrite H.
    split; [reflexivity | split; reflexivity].
  - cbv zeta. split; reflexivity.
Qed.

(** C9 as stated fails: a gearbox with no ratio is constructed, and the
    first reading of its ratio raises; an engine with max_rpm = -5 and
    peak_torque_rpm = 0 is constructed, and its first tick divides by
    zero. *)
Lemma construction_accepts_broken_specs :
  (exists g : Gearbox.t,
     Gearbox.init [] "195/55R16" (4294 # 1000) = Ok g /\
     gear_ratios g = [] /\
     result get_current_ratio g = Raise IndexError) /\
  (let e :=
     Engine.init "M15A-FXE" "Toyota" "3 Cylinder Engine" 3 1490
       (805 # 10) (976 # 10) 14 (-5) 91 67 120 91 "EFI" 0 5500 1000 in
   max_rpm e = -5 /\
   peak_torque_rpm e = 0 /\
   result (calculate_increase_rate (3545 # 1000) ;; update_rpm 0) e =
   Raise ZeroDivisionError).
Proof.
  split.
  - eexists. split; [reflexivity |]. split; reflexivity.
  - cbv zeta. repeat split.
Qed.

(** *** Tire sizes *)

Local Open Scope string_scope.

Lemma all_chars_impl (p q : ascii -> bool) (s : string) :
  (forall c, p c = true -> q c = true) ->
  all_chars p s = true -> all_chars q s = true.
Proof.
  intros Hpq. induction s as [| c s IH]; simpl; [reflexivity |].
  rewrite !andb_true_iff. intros [Hc Hs]. auto.
Qed.

Lemma all_chars_app (p : ascii -> bool) (s1 s2 : string) :
  all_chars p (s1 ++ s2) = all_chars p s1 && all_chars p s2.
Proof.
  induction s1 as [| c s1 IH]; simpl; [reflexivity |].
  rewrite IH. apply andb_assoc.
Qed.

(** Splitting at a separator that the first piece does not contain. *)
Lemma split_app (sep : ascii) (p : ascii -> bool) (w rest : string) :
  p sep = false -> all_chars p w = true ->
  split sep (w ++ String sep rest) = w :: split sep rest.
Proof.
  intros Hsep. induction w as [| c w IH]; simpl.
  - intros _. rewrite Ascii.eqb_refl. reflexivity.
  - rewrite andb_true_iff. intros [Hc Hw].
    destruct (Ascii.eqb_spec c sep) as [E | _]; [congruence |].
    rewrite (IH Hw). reflexivity.
Qed.

Lemma split_whole (sep : ascii) (p : ascii -> bool) (w : string) :
  p sep = false -> all_chars p w = true -> split sep w = [w].
Proof.
  intros Hsep. induction w as [| c w IH]; simpl; [reflexivity |].
  rewrite andb_true_iff. intros [Hc Hw].
  destruct (Ascii.eqb_spec c sep) as [E | _]; [congruence |].
  rewrite (IH Hw). reflexivity.
Qed.

Lemma split_nonempty (sep : ascii) (s : string) : split sep s <> [].
Proof.
  destruct s as [| c s]; simpl; [discriminate |].
  destruct (Ascii.eqb c sep); [discriminate |].
  destruct (split sep s); discriminate.
Qed.

Lemma split_one (sep : ascii) (s b : string) :
  split sep s = [b] -> s = b.
Proof.
  revert b. induction s as [| c s IH]; simpl; intros b H.
  - congruence.
  - destruct (Ascii.eqb c sep).
    + injection H as _ H. destruct (split_nonempty sep s H).
    + destruct (split sep s) as [| h [| h' t]] eqn:Es.
      * destruct (split_nonempty sep s Es).
      * injection H as <-. f_equal. apply IH. reflexivity.
      * discriminate.
Qed.

(** A string in two pieces is the pieces around the separator. *)
Lemma split_two (sep : ascii) (s a b : string) :
  split sep s = [a; b] ->
  s = a ++ String sep b /\ split sep b = [b].
Proof.
  revert a. induction s as [| c s IH]; simpl; intros a H; [discriminate |].
  destruct (Ascii.eqb_spec c sep) as [E | _].
  - subst c. injection H as <- H. simpl.
    pose proof (split_one sep s b H) as ->. split; [reflexivity | exact H].
  - destruct (split sep s) as [| h t] eqn:Es; [discriminate |].
    injection H as <- ->. destruct (IH h eq_refl) as [-> Hb].
    split; [reflexivity | exact Hb].
Qed.

Lemma digits_chars (s : string) :
  forall prev acc z,
    digits prev acc s = Some z -> all_chars literal_char s = true.
Proof.
  induction s as [| c s IH]; simpl; intros prev acc z H; [reflexivity |].
  unfold literal_char at 1.
  destruct (is_digit c); simpl.
  - eapply IH, H.
  - destruct (Ascii.eqb c "_"); [| discriminate]. simpl.
    destruct prev; [| discriminate]. eapply IH, H.
Qed.

Lemma lstrip_chars (p : ascii -> bool) (s : string) :
  all_chars p (lstrip s) = true ->
  all_chars (fun c => is_space c || p c) s = true.
Proof.
  induction s as [| c s IH]; simpl; [reflexivity |].
  destruct (is_space c) eqn:Hc; simpl.
  - exact IH.
  - rewrite !andb_true_iff. intros [H1 H2]. split; [exact H1 |].
    revert H2. apply all_chars_impl. intros c' ->. apply orb_true_r.
Qed.

Lemma rstrip_chars (p : ascii -> bool) (s : string) :
  all_chars p (rstrip s) = true ->
  all_chars (fun c => is_space c || p c) s = true.
Proof.
  induction s as [| c s IH]; simpl; [reflexivity |].
  destruct (rstrip s) as [| c' r] eqn:Er.
  - destruct (is_space c) eqn:Hc; simpl.
    + intros _. apply IH. reflexivity.
    + rewrite andb_true_r. intros ->. simpl. apply IH. reflexivity.
  - simpl. rewrite !andb_true_iff. intros [H1 H2].
    split; [rewrite H1; apply orb_true_r |].
    apply IH. simpl. rewrite andb_true_iff. exact H2.
Qed.

Lemma int_of_str_chars (s : string) (z : Z) :
  int_of_str s = Ok z -> all_chars int_char s = true.
Proof.
  unfold int_of_str. intros H.
  assert (Hbody : all_chars literal_char (strip s) = true).
  { destruct (strip s) as [| c r] eqn:Es; [reflexivity |].
    destruct (Ascii.eqb_spec c "+") as [-> | Hplus].
    - destruct (digits false 0 r) eqn:Ed; [| discriminate].
      simpl. eapply digits_chars, Ed.
    - destruct (Ascii.eqb_spec c "-") as [-> | Hminus].
      + destruct (digits false 0 r) eqn:Ed; [| discriminate].
        simpl. eapply digits_chars, Ed.
      + assert (Hd : exists z', digits false 0 (String c r) = Some z').
        { destruct c as [[] [] [] [] [] [] [] []];
            try (exfalso; apply Hplus; reflexivity);
            try (exfalso; apply Hminus; reflexivity);
            (destruct (digits false 0 (String _ r)) eqn:Ed;
             [eexists; reflexivity | discriminate]). }
        destruct Hd as [z' Hd]. eapply digits_chars, Hd. }
  unfold strip in Hbody.
  apply lstrip_chars, rstrip_chars in Hbody.
  revert Hbody. apply all_chars_impl. intros c.
  unfold int_char. destruct (is_space c); simpl; auto.
Qed.

(** The literals of [int] *)

Lemma is_space_whitespace (c : ascii) :
  is_space c = true <-> In (nat_of_ascii c) int_whitespace.
Proof.
  destruct c as [[] [] [] [] [] [] [] []]; vm_compute;
    split; intros H; try discriminate; try reflexivity;
    repeat (destruct H as [H | H]; [try discriminate H; try reflexivity |]);
    try contradiction; tauto.
Qed.

Lemma blank_all_chars (s : string) : blank s <-> all_chars is_space s = true.
Proof.
  induction s as [| c s IH]; simpl; [tauto |].
  rewrite andb_true_iff, is_space_whitespace, IH. reflexivity.
Qed.

Lemma digit_not_space (c : ascii) : is_digit c = true -> is_space c = false.
Proof.
  destruct c as [[] [] [] [] [] [] [] []]; vm_compute; congruence.
Qed.

Lemma digits_of_part (s : string) :
  digit_part s ->
  forall prev acc, digits prev acc s = Some (digits_value acc s).
Proof.
  induction 1 as [c Hc | c s Hc Hs IH | c s Hc Hs IH]; intros prev acc; simpl;
    rewrite Hc.
  - reflexivity.
  - apply IH.
  - simpl. apply IH.
Qed.

Lemma part_of_digits (s : string) :
  forall prev acc z,
    digits prev acc s = Some z ->
    z = digits_value acc s /\
    (digit_part s \/
     prev = true /\
     (s = EmptyString \/ exists s', s = String "_" s' /\ digit_part s')).
Proof.
  induction s as [| c s IH]; simpl; intros prev acc z H.
  - destruct prev; [| discriminate]. injection H as <-. auto.
  - destruct (is_digit c) eqn:Hc.
    + destruct (IH _ _ _ H) as (Hz & [Hs | (_ & [-> | (s' & -> & Hs')])]).
      * split; [exact Hz | left; apply digit_more; assumption].
      * split; [exact Hz | left; apply digit_one; assumption].
      * split; [exact Hz | left; apply digit_group; assumption].
    + destruct (Ascii.eqb_spec c "_") as [-> | _]; [| discriminate].
      destruct prev; [| discriminate].
      destruct (IH _ _ _ H) as (Hz & [Hs | (Hf & _)]); [| discriminate].
      split; [exact Hz | right]. split; [reflexivity |]. right. eauto.
Qed.

Lemma lstrip_split (s : string) :
  exists l, s = l ++ lstrip s /\ all_chars is_space l = true.
Proof.
  induction s as [| c s (l & E & Hl)]; simpl.
  - exists EmptyString. auto.
  - destruct (is_space c) eqn:Hc.
    + exists (String c l). simpl. rewrite Hc, Hl, <- E. auto.
    + exists EmptyString. auto.
Qed.

Lemma rstrip_split (s : string) :
  exists r, s = rstrip s ++ r /\ all_chars is_space r = true.
Proof.
  induction s as [| c s (r & E & Hr)]; simpl.
  - exists EmptyString. auto.
  - destruct (rstrip s) as [| c' t] eqn:Es.
    + simpl in E. subst r. destruct (is_space c) eqn:Hc.
      * exists (String c s). simpl. rewrite Hc, Hr. auto.
      * exists s. auto.
    + exists r. split; [| exact Hr].
      change (String c s = String c (String c' t ++ r)). rewrite <- E.
      reflexivity.
Qed.

Lemma lstrip_blank (l s : string) :
  all_chars is_space l = true -> lstrip (l ++ s) = lstrip s.
Proof.
  induction l as [| c l IH]; simpl; [reflexivity |].
  rewrite andb_true_iff. intros [Hc Hl]. rewrite Hc. auto.
Qed.

Lemma rstrip_blank (r : string) :
  all_chars is_space r = true -> rstrip r = EmptyString.
Proof.
  induction r as [| c r IH]; simpl; [reflexivity |].
  rewrite andb_true_iff. intros [Hc Hr]. rewrite (IH Hr), Hc. reflexivity.
Qed.

Lemma rstrip_cons (c : ascii) (s : string) :
  rstrip (String c s) =
  match rstrip s with
  | EmptyString => if is_space c then EmptyString else String c EmptyString
  | r => String c r
  end.
Proof. reflexivity. Qed.

Lemma rstrip_solid (s r : string) :
  ends_solid s = true -> all_chars is_space r = true ->
  rstrip (s ++ r) = s.
Proof.
  intros Hs Hr. induction s as [| c s IH]; [discriminate |].
  destruct s as [| c' s].
  - simpl in *. rewrite (rstrip_blank r Hr).
    apply negb_true_iff in Hs. rewrite Hs. reflexivity.
  - change (rstrip (String c (String c' s ++ r)) = String c (String c' s)).
    rewrite rstrip_cons, (IH Hs). reflexivity.
Qed.

Lemma rstrip_after (l s : string) :
  rstrip s <> EmptyString -> rstrip (l ++ s) = l ++ rstrip s.
Proof.
  intros Hne. induction l as [| c l IH]; [reflexivity |].
  change (rstrip (String c (l ++ s)) = String c (l ++ rstrip s)).
  rewrite rstrip_cons, IH.
  destruct (l ++ rstrip s) eqn:E; [| reflexivity].
  destruct l; simpl in E; [contradiction | discriminate].
Qed.

Lemma string_app_assoc (a b c : string) : (a ++ b) ++ c = a ++ b ++ c.
Proof. induction a as [| x a IH]; simpl; congruence. Qed.

Lemma strip_split (s : string) :
  exists l r,
    s = l ++ strip s ++ r /\
    all_chars is_space l = true /\ all_chars is_space r = true.
Proof.
  destruct (rstrip_split s) as (r & Er & Hr).
  destruct (lstrip_split (rstrip s)) as (l & El & Hl).
  exists l, r. unfold strip. rewrite <- string_app_assoc, <- El, <- Er. auto.
Qed.

Lemma strip_solid (l m r : string) :
  all_chars is_space l = true -> all_chars is_space r = true ->
  ends_solid m = true -> lstrip m = m ->
  strip (l ++ m ++ r) = m.
Proof.
  intros Hl Hr Hend Hhead. unfold strip.
  assert (Hm : rstrip (m ++ r) = m) by (apply rstrip_solid; assumption).
  rewrite rstrip_after.
  - rewrite Hm, lstrip_blank by exact Hl. exact Hhead.
  - rewrite Hm. destruct m; discriminate.
Qed.

Lemma digit_part_head (s : string) :
  digit_part s -> exists c t, s = String c t /\ is_digit c = true.
Proof. destruct 1; eauto. Qed.

Lemma digit_part_solid (s : string) : digit_part s -> ends_solid s = true.
Proof.
  induction 1 as [c Hc | c s Hc Hs IH | c s Hc Hs IH].
  - simpl. rewrite (digit_not_space c Hc). reflexivity.
  - destruct (digit_part_head s Hs) as (c' & t & -> & _). exact IH.
  - destruct (digit_part_head s Hs) as (c' & t & -> & _). exact IH.
Qed.

Lemma int_of_str_read (s : string) :
  int_of_str s =
  match read_signed (strip s) with
  | Some z => Ok z
  | None => Raise ValueError
  end.
Proof. reflexivity. Qed.

Lemma read_signed_digit (c : ascii) (r : string) :
  is_digit c = true ->
  read_signed (String c r) = digits false 0 (String c r).
Proof.
  destruct c as [[] [] [] [] [] [] [] []]; intros H;
    try reflexivity; vm_compute in H; discriminate H.
Qed.

Lemma read_signed_other (c : ascii) (r : string) :
  c <> "+"%char -> c <> "-"%char ->
  read_signed (String c r) = digits false 0 (String c r).
Proof.
  destruct c as [[] [] [] [] [] [] [] []]; intros H1 H2;
    try reflexivity; exfalso;
    (apply H1; reflexivity) || (apply H2; reflexivity).
Qed.

Lemma read_signed_literal (b : string) (z : Z) :
  read_signed b = Some z <->
  exists body,
    digit_part body /\
    ((b = body /\ z = digits_value 0 body) \/
     (b = "+" ++ body /\ z = digits_value 0 body) \/
     (b = "-" ++ body /\ z = - digits_value 0 body)).
Proof.
  split.
  - destruct b as [| c r]; [discriminate |].
    destruct (Ascii.eqb_spec c "+") as [-> | Hplus];
      [| destruct (Ascii.eqb_spec c "-") as [-> | Hminus]].
    + simpl. intros H.
      destruct (part_of_digits r false 0 z H) as (Hz & [Hp | (Hf & _)]);
        [| discriminate].
      exists r. auto.
    + simpl. destruct (digits false 0 r) as [v |] eqn:Hd; [| discriminate].
      intros H. injection H as <-.
      destruct (part_of_digits r false 0 v Hd) as (Hz & [Hp | (Hf & _)]);
        [| discriminate].
      exists r. subst v. auto.
    + rewrite (read_signed_other c r Hplus Hminus). intros H.
      destruct (part_of_digits _ false 0 z H) as (Hz & [Hp | (Hf & _)]);
        [| discriminate].
      exists (String c r). auto.
  - intros (body & Hp & [[-> ->] | [[-> ->] | [-> ->]]]).
    + destruct (digit_part_head body Hp) as (c & t & -> & Hc).
      rewrite (read_signed_digit c t Hc). apply digits_of_part, Hp.
    + simpl. apply digits_of_part, Hp.
    + simpl. rewrite (digits_of_part body Hp). reflexivity.
Qed.

(** [int] accepts exactly the literals of the grammar, and reads their
    value. *)
Lemma int_of_str_literal (s : string) (z : Z) :
  int_of_str s = Ok z <-> int_literal s z.
Proof.
  rewrite int_of_str_read. split.
  - destruct (read_signed (strip s)) as [v |] eqn:Hr; [| discriminate].
    intros H. injection H as <-.
    apply read_signed_literal in Hr. destruct Hr as (body & Hp & Hb).
    destruct (strip_split s) as (l & r & E & Hl & Hr).
    exists l, body, r. rewrite !blank_all_chars.
    split; [exact Hl |]. split; [exact Hr |]. split; [exact Hp |].
    destruct Hb as [[Eb ->] | [[Eb ->] | [Eb ->]]]; rewrite Eb in E.
    + left. auto.
    + right. left. rewrite string_app_assoc in E. auto.
    + right. right. rewrite string_app_assoc in E. auto.
  - intros (l & body & r & Hl & Hr & Hp & Hs).
    rewrite blank_all_chars in Hl, Hr.
    pose proof (digit_part_solid body Hp) as Hend.
    destruct (digit_part_head body Hp) as (c & t & Eb & Hc).
    assert (Hstrip : exists b,
              strip s = b /\
              ((b = body /\ z = digits_value 0 body) \/
               (b = "+" ++ body /\ z = digits_value 0 body) \/
               (b = "-" ++ body /\ z = - digits_value 0 body))).
    { destruct Hs as [[-> ->] | [[-> ->] | [-> ->]]].
      - exists body. split; [| left; split; reflexivity].
        apply strip_solid; try assumption.
        rewrite Eb. simpl. rewrite (digit_not_space c Hc). reflexivity.
      - exists ("+" ++ body). split; [| right; left; split; reflexivity].
        rewrite <- string_app_assoc with (a := "+").
        apply strip_solid; try assumption; [| reflexivity].
        rewrite Eb in *. exact Hend.
      - exists ("-" ++ body). split; [| right; right; split; reflexivity].
        rewrite <- string_app_assoc with (a := "-").
        apply strip_solid; try assumption; [| reflexivity].
        rewrite Eb in *. exact Hend. }
    destruct Hstrip as (b & -> & Hb).
    assert (Hread : read_signed b = Some z).
    { apply read_signed_literal. exists body. auto. }
    rewrite Hread. reflexivity.
Qed.

Lemma int_of_str_raises (s : string) (x : exn) :
  int_of_str s = Raise x -> x = ValueError.
Proof.
  unfold int_of_str.
  destruct (match strip s with
            | String "+" r => digits false 0 r
            | String "-" r => option_map Z.opp (digits false 0 r)
            | _ => digits false 0 (strip s)
            end); [discriminate | congruence].
Qed.

Lemma get_wheel_radius_accepted (w a d : string) (zw za zd : Z) :
  int_of_str w = Ok zw -> int_of_str a = Ok za -> int_of_str d = Ok zd ->
  get_wheel_radius (w ++ "/" ++ a ++ "R" ++ d) =
  Ok ((inject_Z zd * (254 # 10) / 2) / 1000)%Q.
Proof.
  intros Hw Ha Hd. unfold get_wheel_radius.
  pose proof (int_of_str_chars w zw Hw) as Cw.
  pose proof (int_of_str_chars a za Ha) as Ca.
  pose proof (int_of_str_chars d zd Hd) as Cd.
  change (w ++ "/" ++ a ++ "R" ++ d) with (w ++ String "/" (a ++ String "R" d)).
  rewrite (split_app "/" int_char w _ eq_refl Cw).
  rewrite (split_whole "/" (fun c => int_char c || Ascii.eqb c "R")
             (a ++ String "R" d) eq_refl).
  - rewrite (split_app "R" int_char a d eq_refl Ca).
    rewrite (split_whole "R" int_char d eq_refl Cd).
    rewrite Hw, Ha, Hd. reflexivity.
  - rewrite all_chars_app. simpl. rewrite andb_true_iff. split.
    + revert Ca. apply all_chars_impl. intros c ->. reflexivity.
    + revert Cd. apply all_chars_impl. intros c ->. reflexivity.
Qed.

Lemma get_wheel_radius_returned (s : string) (r : Q) :
  get_wheel_radius s = Ok r ->
  exists (w a d : string) (zw za zd : Z),
    s = w ++ "/" ++ a ++ "R" ++ d /\
    int_of_str w = Ok zw /\ int_of_str a = Ok za /\ int_of_str d = Ok zd /\
    r = ((inject_Z zd * (254 # 10) / 2) / 1000)%Q.
Proof.
  unfold get_wheel_radius. intros H.
  destruct (split "/" s) as [| w [| rest [| ? ?]]] eqn:E1; try discriminate.
  destruct (split "R" rest) as [| a [| d [| ? ?]]] eqn:E2; try discriminate.
  destruct (int_of_str w) as [zw |] eqn:Hw; [| discriminate].
  destruct (int_of_str a) as [za |] eqn:Ha; [| discriminate].
  destruct (int_of_str d) as [zd |] eqn:Hd; [| discriminate].
  simpl in H. injection H as <-.
  apply split_two in E1. destruct E1 as [-> _].
  apply split_two in E2. destruct E2 as [-> _].
  exists w, a, d, zw, za, zd. repeat split; assumption.
Qed.

(** C6.  [get_wheel_radius] returns a radius exactly for the strings made
    of three integer literals, the first two around '/' and the last two
    around 'R'; a literal is what [int] reads in base ten: whitespace, an
    optional sign, digits with single underscores between them, whitespace.
    The radius is then diameter * 25.4 / 2 / 1000, with the diameter read
    from the third literal alone.  On every other string it raises
    [ValueError].  "195/55R16" gives 0.2032, and so does " 195 /+55R1_6 ";
    "not-a-size" is refused, and so are a lower-case 'r' and a diameter
    that follows the separator of code point 28, which [str.strip] would
    remove and [int] does not. *)
Theorem get_wheel_radius_from_rim :
  (forall (s : string) (r : Q),
     get_wheel_radius s = Ok r <->
     exists (w a d : string) (zw za zd : Z),
       s = w ++ "/" ++ a ++ "R" ++ d /\
       int_literal w zw /\ int_literal a za /\ int_literal d zd /\
       r = ((inject_Z zd * (254 # 10) / 2) / 1000)%Q) /\
  (forall (s : string) (x : exn),
     get_wheel_radius s = Raise x -> x = ValueError) /\
  (exists r : Q,
     get_wheel_radius "195/55R16" = Ok r /\ (r == 2032 # 10000)%Q) /\
  (exists r : Q,
     get_wheel_radius " 195 /+55R1_6 " = Ok r /\ (r == 2032 # 10000)%Q) /\
  get_wheel_radius "not-a-size" = Raise ValueError /\
  get_wheel_radius "195/55r16" = Raise ValueError /\
  get_wheel_radius ("195/55R" ++ String (ascii_of_nat 28) "16") =
  Raise ValueError.
Proof.
  split; [| split; [| split; [| split; [| split; [| split]]]]].
  - intros s r. split.
    + intros H. apply get_wheel_radius_returned in H.
      destruct H as (w & a & d & zw & za & zd & Hs & Hw & Ha & Hd & Hr).
      exists w, a, d, zw, za, zd.
      rewrite <- !int_of_str_literal. auto.
    + intros (w & a & d & zw & za & zd & -> & Hw & Ha & Hd & ->).
      rewrite <- int_of_str_literal in Hw, Ha, Hd.
      apply (get_wheel_radius_accepted w a d zw za zd); assumption.
  - intros s x. unfold get_wheel_radius.
    destruct (split "/" s) as [| w [| rest [| ? ?]]]; try congruence.
    destruct (split "R" rest) as [| a [| d [| ? ?]]]; try congruence.
    destruct (int_of_str w) eqn:Hw; simpl;
      [| intros H; injection H as <-; eapply int_of_str_raises, Hw].
    destruct (int_of_str a) eqn:Ha; simpl;
      [| intros H; injection H as <-; eapply int_of_str_raises, Ha].
    destruct (int_of_str d) eqn:Hd; simpl;
      [| intros H; injection H as <-; eapply int_of_str_raises, Hd].
    discriminate.
  - eexists. split; reflexivity.
  - eexists. split; reflexivity.
  - reflexivity.
  - reflexivity.
  - reflexivity.
Qed.

(** *** Ticking with the clutch released *)

Local Open Scope Z_scope.

Lemma update_rpm_released_frame {A} (f : Engine.t -> A) (now : Z)
    (s : Engine.t) :
  clutched s = false ->
  (forall v e, f (set_current_rpm v e) = f e) ->
  (forall v e, f (set_current_torque_nm v e) = f e) ->
  (forall v e, f (set_current_hp v e) = f e) ->
  f (exec (update_rpm now) s) = f s.
Proof.
  intros Hc Hr Ht Hh. rewrite (update_rpm_frame f now s Hr Ht Hh).
  rewrite (update_rpm_clutch_released now s Hc). reflexivity.
Qed.

(** The speed one tick leaves, with the clutch released. *)
Lemma released_tick_value (now : Z) (s : Engine.t) (ratio : Q) :
  clutched s = false ->
  current_gear_ratio s = Some ratio ->
  max_rpm s <> 0 ->
  let rpm := to_Q (current_rpm s) in
  let tgt := inject_Z (target_of s ratio) in
  let top := inject_Z (max_rpm s) in
  let rpm' := to_Q (current_rpm (exec (update_rpm now) s)) in
  ((rpm < tgt ->
    rpm' == Qmin top (Qmin tgt (rpm + (tgt - rpm) * increase_rate s
                                       * (1 - (rpm / top) ^ 2)))) /\
   (tgt <= rpm -> 700 < rpm ->
    rpm' == Qmin top (Qmax 700 (rpm - (rpm - tgt) * increase_rate s
                                      * (1 # 10)))) /\
   (tgt <= rpm -> rpm <= 700 -> rpm' == Qmin top rpm))%Q.
Proof.
  intros Hc Hgear Htop. cbv zeta.
  rewrite update_rpm_current_rpm, (update_rpm_clutch_released now s Hc).
  unfold exec. split; [| split].
  - intros Hlt.
    rewrite (update_rpm_speed_rises s ratio Hgear Hlt Htop).
    cbn [snd current_rpm set_current_rpm].
    rewrite redlined_value, risen_value. reflexivity.
  - intros Hle Hidle.
    rewrite (update_rpm_speed_falls s ratio Hgear Hle Hidle).
    cbn [snd current_rpm set_current_rpm].
    rewrite redlined_value, fallen_value, Hc. reflexivity.
  - intros Hle Hidle.
    rewrite (update_rpm_speed_rests s ratio Hgear Hle Hidle).
    destruct (Qgtb _ _) eqn:E; cbn [snd current_rpm set_current_rpm to_Q].
    + apply Qgtb_gt in E. rewrite Q.min_l; [reflexivity | lra].
    + apply Qgtb_le in E. rewrite Q.min_r; [reflexivity | lra].
Qed.

(** Case analysis on every [Qmin] and [Qmax] in sight, then [lra]. *)
Ltac q_minmax :=
  repeat match goal with
         | |- context [Qmin ?a ?b] =>
             let m := fresh "m" in
             let H := fresh "Hm" in
             pose proof (Q.min_spec a b) as H;
             set (m := Qmin a b) in *; clearbody m;
             destruct H as [[? ?] | [? ?]]
         | |- context [Qmax ?a ?b] =>
             let m := fresh "m" in
             let H := fresh "Hm" in
             pose proof (Q.max_spec a b) as H;
             set (m := Qmax a b) in *; clearbody m;
             destruct H as [[? ?] | [? ?]]
         | H0 : context [Qmin ?a ?b] |- _ =>
             let m := fresh "m" in
             let H := fresh "Hm" in
             pose proof (Q.min_spec a b) as H;
             set (m := Qmin a b) in *; clearbody m;
             destruct H as [[? ?] | [? ?]]
         | H0 : context [Qmax ?a ?b] |- _ =>
             let m := fresh "m" in
             let H := fresh "Hm" in
             pose proof (Q.max_spec a b) as H;
             set (m := Qmax a b) in *; clearbody m;
             destruct H as [[? ?] | [? ?]]
         end;
  try lra.

Section Rise.

Local Open Scope Q_scope.

Variables top tgt rate rpm : Q.
Hypothesis Htop : 700 <= top.
Hypothesis Hrate : 0 <= rate.

Let limit : Q := Qmax 700 (Qmin top tgt).

Hypothesis Hrpm : 700 <= rpm <= limit.

Lemma limit_le_top : limit <= top.
Proof. subst limit. q_minmax. Qed.

Lemma speed_over_top : 0 <= rpm / top <= 1.
Proof.
  pose proof limit_le_top. split.
  - apply Qle_shift_div_l; lra.
  - apply Qle_shift_div_r; lra.
Qed.

Lemma raised_ge : rpm < tgt -> rpm <= raised top tgt rate rpm.
Proof.
  intros Htgt. unfold raised. pose proof speed_over_top as [H0 H1].
  set (x := rpm / top) in *. simpl.
  assert (0 <= 1 - x * x) by nra.
  assert (0 <= (tgt - rpm) * rate) by nra.
  nra.
Qed.

Lemma raised_progress (eps : Q) :
  0 < eps -> rpm <= top - eps -> rpm <= tgt - eps ->
  rpm + eps * rate * (eps / top) <= raised top tgt rate rpm.
Proof.
  intros He H1 H2. unfold raised. pose proof speed_over_top as [Hx0 Hx1].
  assert (Ex : rpm / top * top == rpm) by (field; intros E; lra).
  assert (Ey : eps / top * top == eps) by (field; intros E; lra).
  set (x := rpm / top) in *. set (y := eps / top) in *. simpl.
  assert (Hy0 : 0 <= y) by (apply Qle_shift_div_l; lra).
  assert (Hd : y <= 1 - x * x).
  { assert (y <= 1 - x) by nra. nra. }
  assert (Hr : eps * rate <= (tgt - rpm) * rate) by nra.
  assert (0 <= eps * rate) by nra.
  nra.
Qed.

(** A step up stays between the speed and the limit, and gains at least
    eps * rate * eps / top while the speed is eps or more below the limit. *)
Lemma step_up_bounds :
  rpm < tgt ->
  let rpm' := Qmin top (Qmin tgt (raised top tgt rate rpm)) in
  rpm <= rpm' /\ rpm' <= limit /\
  forall eps, 0 < eps -> rpm <= limit - eps ->
    Qmin limit (rpm + eps * rate * (eps / top)) <= rpm'.
Proof.
  intros Htgt rpm'. pose proof (raised_ge Htgt) as Hge.
  pose proof limit_le_top as Hlt.
  assert (Hlim : limit == Qmin top tgt).
  { subst limit. q_minmax. }
  split; [| split].
  - subst rpm'. q_minmax.
  - rewrite Hlim. subst rpm'. q_minmax.
  - intros eps He Hfar. rewrite Hlim in Hfar.
    assert (H1 : rpm <= top - eps) by (revert Hfar; q_minmax).
    assert (H2 : rpm <= tgt - eps) by (revert Hfar; q_minmax).
    pose proof (raised_progress eps He H1 H2) as Hp.
    rewrite Hlim. subst rpm'. q_minmax.
Qed.

(** At or above the target the speed is at the limit and stays. *)
Lemma step_down_rests :
  tgt <= rpm ->
  rpm == limit /\
  (700 < rpm ->
   Qmin top (Qmax 700 (rpm - (rpm - tgt) * rate * (1 # 10))) == rpm) /\
  (rpm <= 700 -> Qmin top rpm == rpm).
Proof.
  intros Htgt. pose proof limit_le_top as Hlt.
  assert (Hlim : rpm == limit).
  { revert Hrpm. subst limit. q_minmax. }
  split; [exact Hlim | split].
  - intros Hidle.
    assert (E : rpm == tgt).
    { revert Hrpm Hlt. subst limit. q_minmax. }
    assert (E0 : (rpm - tgt) * rate * (1 # 10) == 0).
    { rewrite E. ring. }
    rewrite E0. q_minmax.
  - intros _. q_minmax.
Qed.

End Rise.

Lemma ticks_succ (clock : nat -> Z) (n : nat) (e s : Engine.t) :
  ticks clock n e = (Ok tt, s) ->
  ticks clock (S n) e = update_rpm (clock n) s.
Proof.
  intros H. simpl. unfold bind at 1. rewrite H. reflexivity.
Qed.

Lemma Q_archimedean (q : Q) : exists n : nat, (q < inject_Z (Z.of_nat n))%Q.
Proof.
  exists (Z.to_nat (Qfloor q + 1)).
  apply Qlt_le_trans with (inject_Z (Qfloor q + 1)).
  - apply Qlt_floor.
  - rewrite <- Zle_Qle. lia.
Qed.

Section Ticking.

Local Open Scope Q_scope.

Variables (e : Engine.t) (ratio : Q) (clock : nat -> Z).
Hypothesis Hidle : at_idle e ratio.
Hypothesis Htop : (700 <= max_rpm e)%Z.
Hypothesis Hthr : 0 <= throttle e.
Hypothesis Hratio : 0 < ratio.

Let top : Q := inject_Z (max_rpm e).
Let tgt : Q := inject_Z (target_of e ratio).
Let rate : Q := increase_rate e.
Let limit : Q := Qmax 700 (Qmin top tgt).
Let rpm (n : nat) : Q := to_Q (current_rpm (exec (ticks clock n) e)).

Lemma top_ge_idle : 700 <= top.
Proof.
  subst top. change 700 with (inject_Z 700). rewrite <- Zle_Qle. exact Htop.
Qed.

Lemma rate_pos : 0 < rate.
Proof.
  subst rate. destruct Hidle as (_ & _ & _ & Hr & Hb). rewrite Hr.
  q_literals. nra.
Qed.

(** One tick from a state of the run. *)
Lemma tick_step (now : Z) (s : Engine.t) :
  same_setup e s ->
  700 <= to_Q (current_rpm s) <= limit ->
  exists s',
    update_rpm now s = (Ok tt, s') /\
    same_setup e s' /\
    700 <= to_Q (current_rpm s') <= limit /\
    to_Q (current_rpm s) <= to_Q (current_rpm s') /\
    (to_Q (current_rpm s) < tgt ->
     to_Q (current_rpm s') ==
     Qmin top (Qmin tgt (raised top tgt rate (to_Q (current_rpm s))))) /\
    (forall eps, 0 < eps -> to_Q (current_rpm s) <= limit - eps ->
       Qmin limit (to_Q (current_rpm s) + eps * rate * (eps / top))
       <= to_Q (current_rpm s')).
Proof.
  intros (Hm & Ht & Hg & Hr & Hb & Hc) Hrpm.
  destruct Hidle as (_ & _ & Hgear & Hrate & Hbase).
  pose proof top_ge_idle as Htop'. pose proof rate_pos as Hrate'.
  pose proof (limit_le_top top tgt Htop') as Hlim. fold limit in Hlim.
  assert (Hserv : in_service s).
  { split; [exists ratio; rewrite Hg, Hr, Hb; auto |].
    rewrite Hb, Ht, Hm. fold top. repeat split; lra. }
  destruct (update_rpm_in_service now s Hserv) as ([] & s' & Hrun & _).
  assert (Hexec : exec (update_rpm now) s = s')
    by (unfold exec; rewrite Hrun; reflexivity).
  exists s'. split; [exact Hrun |].
  assert (Hsetup : same_setup e s').
  { rewrite <- Hexec.
    repeat split;
      (rewrite (update_rpm_released_frame _ now s Hc) by reflexivity);
      assumption. }
  split; [exact Hsetup |].
  assert (Hgs : current_gear_ratio s = Some ratio) by congruence.
  assert (Hnz : max_rpm s <> 0%Z) by lia.
  pose proof (released_tick_value now s ratio Hc Hgs Hnz) as Hval.
  cbv zeta in Hval. rewrite Hexec in Hval.
  assert (Htgt : target_of s ratio = target_of e ratio)
    by (unfold target_of; rewrite Hm, Ht; reflexivity).
  rewrite Htgt, Hm, Hr in Hval.
  fold top tgt rate in Hval.
  fold (raised top tgt rate (to_Q (current_rpm s))) in Hval.
  destruct Hval as (Hup & Hdown & Hrest).
  destruct (Qlt_le_dec (to_Q (current_rpm s)) tgt) as [Hlt | Hge].
  - specialize (Hup Hlt).
    destruct (step_up_bounds top tgt rate (to_Q (current_rpm s))
                Htop' (Qlt_le_weak _ _ Hrate') Hrpm Hlt) as (H1 & H2 & H3).
    cbv zeta in H1, H2, H3. fold limit in H2, H3.
    set (rpm' := Qmin top
                   (Qmin tgt (raised top tgt rate (to_Q (current_rpm s)))))
      in *.
    split; [split; lra |].
    split; [lra |]. split; [intros _; exact Hup |].
    intros eps He Hfar. rewrite Hup. apply H3; assumption.
  - destruct (step_down_rests top tgt rate (to_Q (current_rpm s))
                Htop' Hrpm Hge) as (E & H1 & H2).
    fold limit in E.
    assert (Hsame : to_Q (current_rpm s') == to_Q (current_rpm s)).
    { destruct (Qlt_le_dec 700 (to_Q (current_rpm s))) as [Hi | Hi].
      - rewrite (Hdown Hge Hi). apply H1, Hi.
      - rewrite (Hrest Hge Hi). apply H2, Hi. }
    rewrite Hsame. repeat split; try lra.
    intros eps He Hfar. lra.
Qed.

(** Every run returns, in a state of the same setup with the speed between
    idle and the limit. *)
Lemma ticks_run (n : nat) :
  exists s,
    ticks clock n e = (Ok tt, s) /\
    same_setup e s /\
    700 <= to_Q (current_rpm s) <= limit.
Proof.
  induction n as [| n (s & Hrun & Hs & Hb)].
  - exists e. split; [reflexivity |].
    destruct Hidle as (Hr & Hc & _).
    split; [unfold same_setup; auto 10 |].
    rewrite Hr. cbn [to_Q]. change (inject_Z 700) with 700.
    subst limit. split; [lra | apply Q.le_max_l].
  - destruct (tick_step (clock n) s Hs Hb) as (s' & Hstep & Hs' & Hb' & _).
    exists s'. rewrite (ticks_succ clock n e s Hrun). auto.
Qed.

Lemma ticks_next (n : nat) :
  exists s,
    ticks clock n e = (Ok tt, s) /\
    rpm n = to_Q (current_rpm s) /\
    same_setup e s /\
    700 <= to_Q (current_rpm s) <= limit /\
    rpm (S n) = to_Q (current_rpm (exec (update_rpm (clock n)) s)).
Proof.
  destruct (ticks_run n) as (s & Hrun & Hs & Hb).
  exists s. unfold rpm, exec.
  rewrite (ticks_succ clock n e s Hrun), Hrun. auto.
Qed.

Lemma ticks_returns (n : nat) : result (ticks clock n) e = Ok tt.
Proof.
  destruct (ticks_run n) as (s & Hrun & _). unfold result. rewrite Hrun.
  reflexivity.
Qed.

Lemma ticks_bounds (n : nat) : 700 <= rpm n <= limit.
Proof.
  destruct (ticks_next n) as (s & _ & -> & _ & Hb & _). exact Hb.
Qed.

Lemma ticks_monotone (n : nat) : rpm n <= rpm (S n).
Proof.
  destruct (ticks_next n) as (s & _ & -> & Hs & Hb & ->).
  destruct (tick_step (clock n) s Hs Hb) as (s' & Hstep & _ & _ & Hle & _).
  unfold exec. rewrite Hstep. exact Hle.
Qed.

Lemma ticks_step_up (n : nat) :
  rpm n < tgt ->
  rpm (S n) == Qmin top (Qmin tgt (raised top tgt rate (rpm n))).
Proof.
  destruct (ticks_next n) as (s & _ & -> & Hs & Hb & ->).
  destruct (tick_step (clock n) s Hs Hb) as (s' & Hstep & _ & _ & _ & Hup & _).
  unfold exec. rewrite Hstep. exact Hup.
Qed.

Lemma ticks_progress (eps : Q) (n : nat) :
  0 < eps ->
  limit - eps < rpm n \/
  700 + inject_Z (Z.of_nat n) * (eps * rate * (eps / top)) <= rpm n.
Proof.
  intros He.
  assert (Hd : 0 <= eps * rate * (eps / top)).
  { pose proof rate_pos. pose proof top_ge_idle.
    assert (0 <= eps / top) by (apply Qle_shift_div_l; lra).
    assert (0 <= eps * rate) by nra. nra. }
  set (delta := eps * rate * (eps / top)) in *.
  induction n as [| n IH].
  - right. pose proof (ticks_bounds 0).
    change (inject_Z (Z.of_nat 0)) with 0. lra.
  - pose proof (ticks_monotone n) as Hmono.
    destruct IH as [IH | IH]; [left; lra |].
    destruct (Qlt_le_dec (limit - eps) (rpm n)) as [Hnear | Hfar];
      [left; lra |].
    destruct (ticks_next n) as (s & _ & E & Hs & Hb & E').
    destruct (tick_step (clock n) s Hs Hb)
      as (s' & Hstep & _ & _ & _ & _ & Hp).
    rewrite E in *. rewrite E' in *. unfold exec in *. rewrite Hstep in *.
    cbn [snd] in *.
    specialize (Hp eps He Hfar). fold delta in Hp.
    rewrite Nat2Z.inj_succ. unfold Z.succ. rewrite inject_Z_plus.
    change (inject_Z 1) with 1.
    destruct (Q.min_spec limit (to_Q (current_rpm s) + delta))
      as [[Hlt Hmin] | [Hle Hmin]]; rewrite Hmin in Hp.
    + left. lra.
    + right. lra.
Qed.

Lemma ticks_converge (eps : Q) :
  0 < eps -> exists N : nat, forall n, (N <= n)%nat -> limit - eps < rpm n.
Proof.
  intros He.
  assert (Hd : 0 < eps * rate * (eps / top)).
  { pose proof rate_pos. pose proof top_ge_idle.
    assert (0 < eps / top) by (apply Qlt_shift_div_l; lra).
    assert (0 < eps * rate) by nra. nra. }
  set (delta := eps * rate * (eps / top)) in *.
  destruct (Q_archimedean ((limit - 700) / delta)) as [N HN].
  assert (HN' : limit - 700 < inject_Z (Z.of_nat N) * delta).
  { assert (E : (limit - 700) / delta * delta == limit - 700)
      by (field; intros E; lra).
    set (q := (limit - 700) / delta) in *. nra. }
  exists N. intros n Hn.
  destruct (ticks_progress eps n He) as [H | H]; [exact H |].
  fold delta in H. exfalso.
  pose proof (ticks_bounds n) as [_ Hb].
  assert (Hnn : inject_Z (Z.of_nat N) <= inject_Z (Z.of_nat n))
    by (rewrite <- Zle_Qle; lia).
  nra.
Qed.

End Ticking.

(** The constructor followed by the first push of a gear ratio leaves the
    engine at idle, whatever the throttle is set to afterwards. *)
Lemma at_idle_after_construction
    (name manufacturer description : string) (cylinders displacement : Z)
    (cylinder_bore piston_stroke compression_ratio : Q)
    (max_rpm max_horsepower max_kw max_torque_nm ron : Z) (ecs : string)
    (peak_torque_rpm peak_hp_rpm clutch_response_time : Z)
    (ratio pedal : Q) :
  at_idle
    (exec (calculate_increase_rate ratio ;; set_pedal pedal)
       (Engine.init name manufacturer description cylinders displacement
          cylinder_bore piston_stroke compression_ratio max_rpm
          max_horsepower max_kw max_torque_nm ron ecs peak_torque_rpm
          peak_hp_rpm clutch_response_time))
    ratio.
Proof.
  unfold at_idle. simpl. repeat split; reflexivity.
Qed.

(** C1, as the code has it.  Take an engine at idle (speed 700, clutch
    released) in a gear of ratio > 0, with max_rpm >= 700 and the throttle
    held in [0, 1], and let target = int(max_rpm * throttle * ratio).  Every
    run of ticks returns.  The speeds never decrease, never exceed max_rpm,
    and converge to max(700, min(max_rpm, target)) from below.  A tick that
    finds the speed below the target takes it to
    speed + (target - speed) * increase_rate * (1 - (speed / max_rpm)^2),
    bounded by the target and then by max_rpm. *)
Theorem ticking_from_idle (e : Engine.t) (ratio : Q) (clock : nat -> Z) :
  at_idle e ratio ->
  700 <= max_rpm e ->
  (0 <= throttle e <= 1)%Q ->
  (0 < ratio)%Q ->
  let top := inject_Z (max_rpm e) in
  let target := inject_Z (target_of e ratio) in
  let limit := Qmax 700 (Qmin top target) in
  let rpm := fun n : nat => to_Q (current_rpm (exec (ticks clock n) e)) in
  (forall n, result (ticks clock n) e = Ok tt) /\
  (forall n, rpm n <= rpm (S n))%Q /\
  (forall n, rpm n <= top)%Q /\
  (forall n, rpm n <= limit)%Q /\
  (forall eps : Q, 0 < eps ->
     exists N : nat, forall n, (N <= n)%nat -> limit - eps < rpm n)%Q /\
  (forall n, rpm n < target ->
     rpm (S n) ==
     Qmin top
       (Qmin target
          (rpm n + (target - rpm n) * increase_rate e
                   * (1 - (rpm n / top) ^ 2))))%Q.
Proof.
  intros Hidle Htop [Hthr _] Hratio. cbv zeta.
  split; [| split; [| split; [| split; [| split]]]].
  - intros n. apply (ticks_returns e ratio clock Hidle Htop Hthr Hratio).
  - intros n. apply (ticks_monotone e ratio clock Hidle Htop Hthr Hratio).
  - intros n.
    pose proof (ticks_bounds e ratio clock Hidle Htop Hthr Hratio n) as [_ H].
    apply Qle_trans with (1 := H). apply limit_le_top.
    change 700%Q with (inject_Z 700). rewrite <- Zle_Qle. exact Htop.
  - intros n. apply (ticks_bounds e ratio clock Hidle Htop Hthr Hratio n).
  - intros eps He.
    apply (ticks_converge e ratio clock Hidle Htop Hthr Hratio eps He).
  - intros n.
    apply (ticks_step_up e ratio clock Hidle Htop Hthr Hratio n).
Qed.

Lemma ticking_from_idle_witness :
  at_idle (yaris_in_first 1) (3545 # 1000) /\
  (forall n : nat,
     to_Q (current_rpm (exec (ticks (fun _ => 0%Z) n) (yaris_in_first 1)))
     <= 5500)%Q.
Proof.
  assert (Hidle : at_idle (yaris_in_first 1) (3545 # 1000))
    by (repeat split; reflexivity).
  split; [exact Hidle |].
  assert (Htop : 700 <= max_rpm (yaris_in_first 1)) by discriminate.
  assert (Hthr : (0 <= throttle (yaris_in_first 1) <= 1)%Q)
    by (split; discriminate).
  assert (Hratio : (0 < 3545 # 1000)%Q) by reflexivity.
  exact (proj1 (proj2 (proj2
    (ticking_from_idle (yaris_in_first 1) (3545 # 1000) (fun _ => 0%Z)
       Hidle Htop Hthr Hratio)))).
Defined.

(** C1 as stated fails with the throttle closed: min(max_rpm, max_rpm *
    throttle * ratio) is then 0, and the speed rests at 700 in every tick,
    so it never comes within 1 of 0. *)
Lemma closed_throttle_rests_at_idle :
  let e := yaris_in_first 0 in
  let rpm :=
    fun n : nat => to_Q (current_rpm (exec (ticks (fun _ => 0%Z) n) e)) in
  (Qmin (inject_Z (max_rpm e))
        (inject_Z (max_rpm e) * throttle e * (3545 # 1000)) == 0)%Q /\
  (forall n, rpm n == 700)%Q /\
  ~ (exists N : nat, forall n, (N <= n)%nat -> Qabs (rpm n - 0) < 1)%Q.
Proof.
  cbv zeta.
  assert (Hidle : at_idle (yaris_in_first 0) (3545 # 1000))
    by (repeat split; reflexivity).
  assert (Hrest : forall n,
            (to_Q (current_rpm
                     (exec (ticks (fun _ => 0%Z) n) (yaris_in_first 0)))
             == 700)%Q).
  { intros n.
    pose proof (ticks_bounds (yaris_in_first 0) (3545 # 1000) (fun _ => 0%Z)
                  Hidle ltac:(discriminate) ltac:(discriminate)
                  ltac:(reflexivity) n) as [Hlo Hhi].
    change (Qmax 700
              (Qmin (inject_Z (max_rpm (yaris_in_first 0)))
                 (inject_Z (target_of (yaris_in_first 0) (3545 # 1000)))))
      with 700%Q in Hhi.
    apply Qle_antisym; assumption. }
  split; [reflexivity | split; [exact Hrest |]].
  intros [N HN]. specialize (HN N (le_n N)). rewrite (Hrest N) in HN.
  revert HN. apply Qle_not_lt. discriminate.
Qed.

(** ** Further properties *)

(** *** A tick without a gear ratio *)

(** X1.  Before any gear ratio has been pushed, [update_rpm] raises
    [TypeError] at the computation of the target: the speed, the torque and
    the horsepower are left as they were. *)
Theorem update_rpm_without_gear_raises (e : Engine.t) (now : Z) :
  current_gear_ratio e = None ->
  result (update_rpm now) e = Raise TypeError /\
  current_rpm (exec (update_rpm now) e) = current_rpm e /\
  current_torque_nm (exec (update_rpm now) e) = current_torque_nm e /\
  current_hp (exec (update_rpm now) e) = current_hp e.
Proof.
  intros Hgear.
  assert (Hg1 : current_gear_ratio (exec (update_rpm_clutch now) e) = None).
  { destruct (clutched e) eqn:Hc.
    - destruct (clutched_timestamp e) as [since |] eqn:Hts.
      + rewrite (update_rpm_clutch_dwell now since e Hc Hts).
        destruct (_ >? _); exact Hgear.
      + rewrite (update_rpm_clutch_first now e Hc Hts). exact Hgear.
    - rewrite (update_rpm_clutch_released now e Hc). exact Hgear. }
  assert (Hrun : update_rpm now e =
                 (Raise TypeError, exec (update_rpm_clutch now) e)).
  { unfold update_rpm. unfold bind at 1.
    pose proof (update_rpm_clutch_returns now e) as Hret.
    unfold result, exec in *.
    destruct (update_rpm_clutch now e) as [r e1]. simpl in *. subst r.
    unfold bind at 1. rewrite (update_rpm_speed_no_gear e1 Hg1). reflexivity. }
  unfold result. unfold exec at 1 2 3. rewrite Hrun. cbn [fst snd].
  split; [reflexivity |].
  destruct (clutched e) eqn:Hc.
  - destruct (clutched_timestamp e) as [since |] eqn:Hts.
    + rewrite (update_rpm_clutch_dwell now since e Hc Hts).
      destruct (_ >? _); repeat split.
    + rewrite (update_rpm_clutch_first now e Hc Hts). repeat split.
  - rewrite (update_rpm_clutch_released now e Hc). repeat split.
Qed.

Lemma update_rpm_without_gear_raises_witness :
  result (update_rpm 0) yaris_engine = Raise TypeError /\
  current_rpm (exec (update_rpm 0) yaris_engine) = PInt 700.
Proof.
  destruct (update_rpm_without_gear_raises yaris_engine 0 eq_refl)
    as (Hr & Hrpm & _).
  split; [exact Hr | exact Hrpm].
Defined.

(** *** The torque and horsepower a speed gives *)

Lemma inject_Z_minus (a b : Z) :
  (inject_Z (a - b) == inject_Z a - inject_Z b)%Q.
Proof.
  unfold Z.sub. rewrite inject_Z_plus, inject_Z_opp. reflexivity.
Qed.

Lemma calculate_current_torque_value (e : Engine.t) :
  let rpm := to_Q (current_rpm e) in
  let peak := inject_Z (peak_torque_rpm e) in
  (~ rpm == 0)%Q ->
  ((rpm <= peak)%Q -> peak_torque_rpm e <> 0) ->
  ((peak < rpm)%Q -> max_rpm e - peak_torque_rpm e <> 0) ->
  calculate_current_torque e =
  (Ok (torque_at e rpm), set_current_torque_nm (torque_at e rpm) e).
Proof.
  cbv zeta. intros Hn0 Hramp Hfall.
  unfold calculate_current_torque, torque_at, torque_curve. py_unfold.
  rewrite (proj2 (Qeqb_neq _ _) Hn0).
  destruct (Qleb (to_Q (current_rpm e)) (inject_Z (peak_torque_rpm e)))
    eqn:Hc.
  - apply Qleb_le in Hc. rewrite (inject_Z_nonzero _ (Hramp Hc)). reflexivity.
  - apply Qleb_gt in Hc. rewrite (inject_Z_nonzero _ (Hfall Hc)). reflexivity.
Qed.

Lemma calculate_current_hp_value (e : Engine.t) :
  let rpm := to_Q (current_rpm e) in
  (~ rpm == 0)%Q ->
  calculate_current_hp e =
  (Ok (hp_at e (current_torque_nm e) rpm),
   set_current_hp (hp_at e (current_torque_nm e) rpm) e).
Proof.
  cbv zeta. intros Hn0. unfold calculate_current_hp, hp_at. py_unfold.
  rewrite (proj2 (Qeqb_neq _ _) Hn0). simpl.
  match goal with |- context [Qgtb ?a ?b] => destruct (Qgtb a b) end;
    reflexivity.
Qed.

Section TorqueRange.

Local Open Scope Q_scope.

Variable e : Engine.t.

Let peak : Q := inject_Z (peak_torque_rpm e).
Let top : Q := inject_Z (max_rpm e).
Let full : Q := inject_Z (max_torque_nm e).

Hypothesis Hpeak : 0 < peak < top.
Hypothesis Hfull : 0 <= full.

Lemma torque_curve_le (rpm : Q) : 0 < rpm -> torque_curve e rpm <= full.
Proof.
  intros Hrpm. unfold torque_curve. fold peak full.
  destruct (Qleb rpm peak) eqn:Hc.
  - apply Qleb_le in Hc.
    assert (H1 : rpm / peak <= 1) by (apply Qle_shift_div_r; lra).
    nra.
  - set (x := (rpm - peak) / inject_Z (max_rpm e - peak_torque_rpm e)).
    simpl. nra.
Qed.

Lemma torque_at_range (rpm : Q) :
  0 < rpm -> full * (3 # 10) <= torque_at e rpm <= full.
Proof.
  intros Hrpm. unfold torque_at. fold full.
  pose proof (torque_curve_le rpm Hrpm) as Hle.
  destruct (max2_spec (torque_curve e rpm) (full * (3 # 10)))
    as (_ & Hfloor & [E | E]); rewrite E in *; split; lra.
Qed.

Lemma torque_at_peak (rpm : Q) : rpm == peak -> torque_at e rpm == full.
Proof.
  intros E. unfold torque_at, torque_curve. fold peak full.
  rewrite (proj2 (Qleb_le rpm peak)) by lra.
  assert (E1 : rpm / peak == 1) by (rewrite E; field; intros E0; lra).
  unfold max2.
  match goal with |- context [Qgtb ?a ?b] => destruct (Qgtb a b) eqn:Hc end.
  - apply Qgtb_gt in Hc. rewrite E1 in Hc. lra.
  - rewrite E1. ring.
Qed.

Lemma torque_at_redline (rpm : Q) :
  rpm == top -> torque_at e rpm == full * (3 # 10).
Proof.
  intros E. unfold torque_at, torque_curve. fold peak full.
  rewrite (proj2 (Qleb_gt rpm peak)) by lra.
  assert (E1 : (rpm - peak) / inject_Z (max_rpm e - peak_torque_rpm e) == 1).
  { rewrite inject_Z_minus. fold peak top. rewrite E. field.
    intros E0. lra. }
  unfold max2.
  match goal with |- context [Qgtb ?a ?b] => destruct (Qgtb a b) eqn:Hc end.
  - reflexivity.
  - apply Qgtb_le in Hc. rewrite E1 in *. simpl in *. lra.
Qed.

End TorqueRange.

(** X2.  With 0 < peak_torque_rpm < max_rpm and max_torque_nm >= 0,
    [calculate_current_torque] at a speed in (0, max_rpm] stores and returns
    a torque between 30% of max_torque_nm and max_torque_nm; it is
    max_torque_nm at peak_torque_rpm and 30% of it at max_rpm. *)
Theorem calculate_current_torque_range (e : Engine.t) :
  let rpm := to_Q (current_rpm e) in
  let peak := inject_Z (peak_torque_rpm e) in
  let top := inject_Z (max_rpm e) in
  let full := inject_Z (max_torque_nm e) in
  (0 < rpm <= top)%Q ->
  (0 < peak < top)%Q ->
  (0 <= full)%Q ->
  exists torque : Q,
    calculate_current_torque e = (Ok torque, set_current_torque_nm torque e) /\
    (full * (3 # 10) <= torque <= full)%Q /\
    (rpm == peak -> torque == full)%Q /\
    (rpm == top -> torque == full * (3 # 10))%Q.
Proof.
  cbv zeta. intros [Hpos Htop] Hpeak Hfull.
  exists (torque_at e (to_Q (current_rpm e))). split.
  - apply calculate_current_torque_value.
    + intros E. lra.
    + intros _ E. rewrite E in Hpeak. change (inject_Z 0) with 0%Q in Hpeak.
      lra.
    + intros _ E. destruct Hpeak as [_ Hlt]. rewrite <- Zlt_Qlt in Hlt. lia.
  - split; [apply torque_at_range; assumption |].
    split; [apply torque_at_peak | apply torque_at_redline]; assumption.
Qed.

Lemma calculate_current_torque_range_witness :
  exists torque : Q,
    calculate_current_torque (yaris_in_first 1) =
    (Ok torque, set_current_torque_nm torque (yaris_in_first 1)) /\
    (36 <= torque <= 120)%Q.
Proof.
  destruct (calculate_current_torque_range (yaris_in_first 1))
    as (torque & Hrun & Hrange & _).
  - split; [reflexivity | discriminate].
  - split; reflexivity.
  - discriminate.
  - exists torque. split; [exact Hrun |].
    change (inject_Z (max_torque_nm (yaris_in_first 1))) with 120%Q in Hrange.
    lra.
Defined.

(** A tick of an engine in service, stage by stage: the speed part leaves
    a state in service, whose torque and then horsepower are stored. *)
Lemma update_rpm_in_stages (e : Engine.t) (now : Z) :
  in_service e ->
  exists e2 : Engine.t,
    in_service e2 /\
    let tq := torque_at e2 (to_Q (current_rpm e2)) in
    let hp := hp_at e2 tq (to_Q (current_rpm e2)) in
    update_rpm now e =
    (Ok tt, set_current_hp hp (set_current_torque_nm tq e2)).
Proof.
  intros He.
  destruct (update_rpm_clutch_in_service now e He) as ([] & e1 & H1 & He1).
  destruct (update_rpm_speed_in_service e1 He1) as ([] & e2 & H2 & He2).
  exists e2. split; [exact He2 |]. cbv zeta.
  pose proof He2 as (_ & _ & _ & Hlo & Hhi).
  assert (Hn0 : ~ (to_Q (current_rpm e2) == 0)%Q) by (intros E; lra).
  assert (Ht : calculate_current_torque e2 =
               (Ok (torque_at e2 (to_Q (current_rpm e2))),
                set_current_torque_nm
                  (torque_at e2 (to_Q (current_rpm e2))) e2)).
  { apply calculate_current_torque_value.
    - exact Hn0.
    - intros Hle E. rewrite E in Hle. change (inject_Z 0) with 0%Q in Hle.
      lra.
    - intros Hlt E.
      assert (peak_torque_rpm e2 < max_rpm e2) by (apply inject_Z_lt; lra).
      lia. }
  set (tq := torque_at e2 (to_Q (current_rpm e2))) in *.
  pose proof (calculate_current_hp_value (set_current_torque_nm tq e2) Hn0)
    as Hh.
  cbv zeta in Hh. cbn [current_rpm current_torque_nm set_current_torque_nm]
    in Hh.
  unfold update_rpm. unfold bind at 1. rewrite H1.
  unfold bind at 1. rewrite H2.
  unfold bind at 1. rewrite Ht.
  unfold bind at 1. rewrite Hh. reflexivity.
Qed.

Lemma hp_at_le (e : Engine.t) (torque rpm : Q) :
  (to_Q (hp_at e torque rpm) <= inject_Z (max_horsepower e))%Q.
Proof.
  unfold hp_at.
  match goal with |- context [Qgtb ?a ?b] => destruct (Qgtb a b) eqn:Hc end.
  - apply Qle_refl.
  - apply Qgtb_le in Hc. exact Hc.
Qed.

(** X3.  A tick of an engine in service leaves the stored torque and
    horsepower in step with the stored speed: the torque is the one of the
    curve at the new speed, and the horsepower is computed from that new
    torque and the new speed, bounded by max_horsepower. *)
Theorem update_rpm_refreshes_torque_and_hp (e : Engine.t) (now : Z) :
  in_service e ->
  let e' := exec (update_rpm now) e in
  let rpm' := to_Q (current_rpm e') in
  current_torque_nm e' = torque_at e' rpm' /\
  current_hp e' = hp_at e' (current_torque_nm e') rpm' /\
  (to_Q (current_hp e') <= inject_Z (max_horsepower e'))%Q.
Proof.
  intros He. cbv zeta.
  destruct (update_rpm_in_stages e now He) as (e2 & _ & Hrun).
  cbv zeta in Hrun. unfold exec. rewrite Hrun. cbn [snd].
  split; [reflexivity | split; [reflexivity |]].
  apply (hp_at_le e2).
Qed.

Lemma update_rpm_refreshes_torque_and_hp_witness :
  let e' := exec (update_rpm 0) (yaris_in_first 1) in
  current_torque_nm e' = torque_at e' (to_Q (current_rpm e')) /\
  (to_Q (current_hp e') <= 91)%Q.
Proof.
  assert (He : in_service (yaris_in_first 1)).
  { split; [exists (3545 # 1000)%Q; split; reflexivity |].
    repeat split; discriminate. }
  destruct (update_rpm_refreshes_torque_and_hp (yaris_in_first 1) 0 He)
    as (Ht & _ & Hh).
  split; [exact Ht | exact Hh].
Defined.

(** *** Looking up the gear ratio *)

Lemma index_out_of_range {A} (l : list A) (i : Z) :
  i < - Z.of_nat (List.length l) \/ Z.of_nat (List.length l) <= i ->
  index l i = Raise IndexError.
Proof.
  intros H. unfold index.
  destruct (Z.ltb_spec i 0).
  - destruct (Z.leb_spec 0 (i + Z.of_nat (List.length l))); [| reflexivity].
    destruct (Z.ltb_spec (i + Z.of_nat (List.length l))
                (Z.of_nat (List.length l))); [lia | reflexivity].
  - destruct (Z.leb_spec 0 i); [| lia].
    destruct (Z.ltb_spec i (Z.of_nat (List.length l))); [lia | reflexivity].
Qed.

Lemma index_in_range {A} (l : list A) (i : Z) :
  0 <= i < Z.of_nat (List.length l) ->
  exists a, index l i = Ok a /\ nth_error l (Z.to_nat i) = Some a.
Proof.
  intros H. unfold index.
  destruct (Z.ltb_spec i 0); [lia |].
  destruct (Z.leb_spec 0 i); [| lia].
  destruct (Z.ltb_spec i (Z.of_nat (List.length l))); [| lia]. simpl.
  destruct (nth_error l (Z.to_nat i)) as [a |] eqn:E.
  - exists a. auto.
  - apply nth_error_None in E. lia.
Qed.

(** X4.  [get_speed] never changes the gearbox.  It raises [IndexError]
    when current_gear - 1 is not an index of the list of ratios, in
    particular whenever the list is empty, and [ZeroDivisionError] when
    final_drive_ratio * ratio * 1000 is 0. *)
Theorem get_speed_failures (g : Gearbox.t) (engine_rpm : pynum) :
  let n := Z.of_nat (List.length (gear_ratios g)) in
  let i := current_gear g - 1 in
  exec (get_speed engine_rpm) g = g /\
  (i < - n \/ n <= i ->
   result (get_speed engine_rpm) g = Raise IndexError) /\
  (gear_ratios g = [] ->
   result (get_speed engine_rpm) g = Raise IndexError) /\
  (forall ratio : Q,
     index (gear_ratios g) i = Ok ratio ->
     (final_drive_ratio g * ratio * 1000 == 0)%Q ->
     result (get_speed engine_rpm) g = Raise ZeroDivisionError).
Proof.
  cbv zeta. split; [apply get_speed_pure |].
  assert (Hrange :
            current_gear g - 1 < - Z.of_nat (List.length (gear_ratios g)) \/
            Z.of_nat (List.length (gear_ratios g)) <= current_gear g - 1 ->
            result (get_speed engine_rpm) g = Raise IndexError).
  { intros H. unfold get_speed, result. py_unfold.
    rewrite (index_out_of_range _ _ H). reflexivity. }
  split; [exact Hrange | split].
  - intros E. apply Hrange. rewrite E. simpl. lia.
  - intros ratio Hidx Hden. unfold get_speed, result. py_unfold.
    rewrite Hidx, (proj2 (Qeqb_eq _ _) Hden). reflexivity.
Qed.

(** X5.  From gear 1 of a gearbox with at least one ratio, after any
    sequence of shifts [get_current_ratio] returns the ratio of the current
    gear, the element of the list at position current_gear - 1, and leaves
    the gearbox as it is. *)
Theorem get_current_ratio_after_shifts (g : Gearbox.t) (cs : list shift) :
  gear_ratios g <> [] ->
  current_gear g = 1 ->
  let g' := shifts cs g in
  exists ratio : Q,
    get_current_ratio g' = (Ok ratio, g') /\
    nth_error (gear_ratios g) (Z.to_nat (current_gear g' - 1)) = Some ratio.
Proof.
  intros Hne H1. cbv zeta.
  assert (Hb : gear_in_bounds (shifts cs g)).
  { apply shifts_in_bounds. unfold gear_in_bounds, top_gear. rewrite H1.
    destruct (gear_ratios g); [contradiction | simpl List.length; lia]. }
  unfold gear_in_bounds, top_gear in Hb.
  destruct (index_in_range (gear_ratios (shifts cs g))
              (current_gear (shifts cs g) - 1) ltac:(lia))
    as (ratio & Hidx & Hnth).
  exists ratio. split.
  - unfold get_current_ratio. py_unfold. rewrite Hidx. reflexivity.
  - rewrite <- (shifts_ratios cs g). exact Hnth.
Qed.

Lemma get_current_ratio_after_shifts_witness :
  exists ratio : Q,
    get_current_ratio (shifts [Up; Up; Down] yaris_gearbox) =
    (Ok ratio, shifts [Up; Up; Down] yaris_gearbox) /\
    ratio = (1913 # 1000)%Q.
Proof.
  destruct (get_current_ratio_after_shifts yaris_gearbox [Up; Up; Down])
    as (ratio & Hrun & Hnth).
  - discriminate.
  - reflexivity.
  - exists ratio. split; [exact Hrun |].
    injection Hnth as <-. reflexivity.
Defined.

(** X6.  Away from the ends the two shifts undo each other: a shift up
    followed by a shift down from a gear below the top, and a shift down
    followed by a shift up from a gear above the first, give the gearbox back
    as it was. *)
Theorem shifts_undo_each_other (g : Gearbox.t) :
  1 <= current_gear g <= Z.of_nat (List.length (gear_ratios g)) ->
  (current_gear g < Z.of_nat (List.length (gear_ratios g)) ->
   (shift_up ;; shift_down) g = (Ok tt, g)) /\
  (1 < current_gear g ->
   (shift_down ;; shift_up) g = (Ok tt, g)).
Proof.
  intros Hb. split; intros H.
  - unfold bind. rewrite (shift_up_below_top g H).
    rewrite shift_down_above_bottom by (simpl; lia).
    destruct g as [ratios cur radius final]. unfold set_current_gear. simpl.
    do 2 f_equal. lia.
  - unfold bind. rewrite (shift_down_above_bottom g H).
    rewrite shift_up_below_top by (unfold top_gear; simpl; lia).
    destruct g as [ratios cur radius final]. unfold set_current_gear. simpl.
    do 2 f_equal. lia.
Qed.

Lemma shifts_undo_each_other_witness :
  (shift_up ;; shift_down) yaris_gearbox = (Ok tt, yaris_gearbox).
Proof.
  apply (shifts_undo_each_other yaris_gearbox); simpl; lia.
Defined.

(** *** Coasting down with the clutch released *)

(** A property that every tick keeps holds after every run. *)
Lemma ticks_invariant (I : Engine.t -> Prop) (clock : nat -> Z) :
  (forall now s, I s -> exists s', update_rpm now s = (Ok tt, s') /\ I s') ->
  forall e, I e ->
  forall n, exists s, ticks clock n e = (Ok tt, s) /\ I s.
Proof.
  intros Hstep e He n. induction n as [| n (s & Hrun & Hs)].
  - exists e. split; [reflexivity | exact He].
  - destruct (Hstep (clock n) s Hs) as (s' & Hs' & HI).
    exists s'. rewrite (ticks_succ clock n e s Hrun). auto.
Qed.

Section Coasting.

Local Open Scope Q_scope.

Variables (e : Engine.t) (ratio : Q) (clock : nat -> Z).
Hypothesis Hserv : in_service e.
Hypothesis Hc : clutched e = false.
Hypothesis Hgear : current_gear_ratio e = Some ratio.
Hypothesis Hrate : 0 < increase_rate e <= 10.
Hypothesis Habove : inject_Z (target_of e ratio) <= to_Q (current_rpm e).

Let top : Q := inject_Z (max_rpm e).
Let tgt : Q := inject_Z (target_of e ratio).
Let rate : Q := increase_rate e.
Let floor : Q := Qmax 700 tgt.
Let rpm (n : nat) : Q := to_Q (current_rpm (exec (ticks clock n) e)).

(** The states of the run. *)
Let coasting (s : Engine.t) : Prop :=
  same_setup e s /\ floor <= to_Q (current_rpm s) <= top.

Lemma coasting_start : coasting e.
Proof.
  destruct Hserv as (_ & _ & _ & Hlo & Hhi).
  split; [unfold same_setup; auto 10 |].
  fold top. subst floor. fold tgt in Habove. split; [| exact Hhi].
  q_minmax.
Qed.

Lemma coast_step (now : Z) (s : Engine.t) :
  coasting s ->
  exists s',
    update_rpm now s = (Ok tt, s') /\
    coasting s' /\
    to_Q (current_rpm s') <= to_Q (current_rpm s) /\
    (forall eps, 0 < eps -> floor + eps <= to_Q (current_rpm s) ->
       to_Q (current_rpm s')
       <= Qmax floor (to_Q (current_rpm s) - eps * rate * (1 # 10))).
Proof.
  intros [(Hm & Ht & Hg & Hr & Hb & Hcs) Hrpm].
  assert (Hfloor : 700 <= floor /\ tgt <= floor)
    by (subst floor; split; [apply Q.le_max_l | apply Q.le_max_r]).
  destruct Hfloor as [Hf1 Hf2].
  assert (Hin : in_service s).
  { destruct Hserv as ((r & Hgr & Hrr) & Hbase & Hthr & _).
    split; [exists r; rewrite Hg, Hr, Hb; auto |].
    rewrite Hb, Ht, Hm. fold top. repeat split; lra. }
  destruct (update_rpm_in_service now s Hin) as ([] & s' & Hrun & _).
  assert (Hexec : exec (update_rpm now) s = s')
    by (unfold exec; rewrite Hrun; reflexivity).
  exists s'. split; [exact Hrun |].
  assert (Hsetup : same_setup e s').
  { rewrite <- Hexec.
    repeat split;
      (rewrite (update_rpm_released_frame _ now s Hcs) by reflexivity);
      assumption. }
  assert (Hgs : current_gear_ratio s = Some ratio) by congruence.
  assert (Hnz : max_rpm s <> 0%Z).
  { intros E. rewrite Hm in E. subst top. rewrite E in Hrpm.
    change (inject_Z 0) with 0 in Hrpm. lra. }
  pose proof (released_tick_value now s ratio Hcs Hgs Hnz) as Hval.
  cbv zeta in Hval. rewrite Hexec in Hval.
  assert (Htgt : target_of s ratio = target_of e ratio)
    by (unfold target_of; rewrite Hm, Ht; reflexivity).
  rewrite Htgt, Hm, Hr in Hval. fold top tgt rate in Hval.
  destruct Hval as (_ & Hdown & Hrest).
  assert (Hge : tgt <= to_Q (current_rpm s)) by lra.
  fold rate in Hrate.
  destruct (Qlt_le_dec 700 (to_Q (current_rpm s))) as [Hi | Hi].
  - specialize (Hdown Hge Hi).
    set (c := to_Q (current_rpm s)) in *.
    assert (Hk : 0 <= (c - tgt) * rate * (1 # 10) <= c - tgt) by nra.
    set (d := (c - tgt) * rate * (1 # 10)) in *.
    assert (Hnew : floor <= to_Q (current_rpm s') <= c).
    { rewrite Hdown. subst floor. q_minmax. }
    split; [split; [exact Hsetup | split; lra] |].
    split; [lra |].
    intros eps He Hfar.
    assert (Hd : eps * rate * (1 # 10) <= d) by (subst d; nra).
    rewrite Hdown. revert Hd. subst floor. q_minmax.
  - specialize (Hrest Hge Hi).
    assert (Hsame : to_Q (current_rpm s') == to_Q (current_rpm s)).
    { rewrite Hrest. apply Q.min_r. lra. }
    split; [split; [exact Hsetup | rewrite Hsame; exact Hrpm] |].
    split; [lra |].
    intros eps He Hfar. lra.
Qed.

Lemma coast_next (n : nat) :
  exists s,
    ticks clock n e = (Ok tt, s) /\
    coasting s /\
    rpm n = to_Q (current_rpm s) /\
    rpm (S n) = to_Q (current_rpm (exec (update_rpm (clock n)) s)).
Proof.
  destruct (ticks_invariant coasting clock) with (e := e) (n := n)
    as (s & Hrun & Hs).
  - intros now s Hs.
    destruct (coast_step now s Hs) as (s' & Hstep & Hs' & _).
    exists s'. auto.
  - exact coasting_start.
  - exists s. unfold rpm, exec.
    rewrite (ticks_succ clock n e s Hrun), Hrun. auto.
Qed.

Lemma coast_returns (n : nat) : result (ticks clock n) e = Ok tt.
Proof.
  destruct (coast_next n) as (s & Hrun & _). unfold result. rewrite Hrun.
  reflexivity.
Qed.

Lemma coast_bounds (n : nat) : floor <= rpm n <= top.
Proof.
  destruct (coast_next n) as (s & _ & [_ Hb] & -> & _). exact Hb.
Qed.

Lemma coast_monotone (n : nat) : rpm (S n) <= rpm n.
Proof.
  destruct (coast_next n) as (s & _ & Hs & -> & ->).
  destruct (coast_step (clock n) s Hs) as (s' & Hstep & _ & Hle & _).
  unfold exec. rewrite Hstep. exact Hle.
Qed.

Lemma coast_progress (eps : Q) (n : nat) :
  0 < eps ->
  rpm n < floor + eps \/
  rpm n <= rpm 0 - inject_Z (Z.of_nat n) * (eps * rate * (1 # 10)).
Proof.
  intros He. fold rate in Hrate.
  assert (Hd : 0 <= eps * rate * (1 # 10)) by nra.
  set (delta := eps * rate * (1 # 10)) in *.
  induction n as [| n IH].
  - right. change (inject_Z (Z.of_nat 0)) with 0. lra.
  - pose proof (coast_monotone n) as Hmono.
    destruct IH as [IH | IH]; [left; lra |].
    destruct (Qlt_le_dec (rpm n) (floor + eps)) as [Hnear | Hfar];
      [left; lra |].
    destruct (coast_next n) as (s & _ & Hs & E & E').
    destruct (coast_step (clock n) s Hs) as (s' & Hstep & _ & _ & Hp).
    rewrite E in *. rewrite E' in *. unfold exec in *. rewrite Hstep in *.
    cbn [snd] in *.
    specialize (Hp eps He Hfar). fold delta in Hp.
    rewrite Nat2Z.inj_succ. unfold Z.succ. rewrite inject_Z_plus.
    change (inject_Z 1) with 1.
    destruct (Q.max_spec floor (to_Q (current_rpm s) - delta))
      as [[Hlt Hmax] | [Hle Hmax]]; rewrite Hmax in Hp.
    + right. lra.
    + left. lra.
Qed.

Lemma coast_converges (eps : Q) :
  0 < eps -> exists N : nat, forall n, (N <= n)%nat -> rpm n < floor + eps.
Proof.
  intros He. fold rate in Hrate.
  assert (Hd : 0 < eps * rate * (1 # 10)) by nra.
  set (delta := eps * rate * (1 # 10)) in *.
  destruct (Q_archimedean ((rpm 0 - floor) / delta)) as [N HN].
  assert (HN' : rpm 0 - floor < inject_Z (Z.of_nat N) * delta).
  { assert (E : (rpm 0 - floor) / delta * delta == rpm 0 - floor)
      by (field; intros E; lra).
    set (q := (rpm 0 - floor) / delta) in *. nra. }
  exists N. intros n Hn.
  destruct (coast_progress eps n He) as [H | H]; [exact H |].
  fold delta in H. exfalso.
  pose proof (coast_bounds n) as [Hb _].
  assert (Hnn : inject_Z (Z.of_nat N) <= inject_Z (Z.of_nat n))
    by (rewrite <- Zle_Qle; lia).
  nra.
Qed.

End Coasting.

(** X7.  Take an engine in service with the clutch released, a rate in
    (0, 10] and the target int(max_rpm * throttle * ratio) at or below the
    speed (the throttle has been let go).  Every run of ticks returns; the
    speeds never increase, never fall below max(700, target), and converge
    to max(700, target). *)
Theorem coasting_down (e : Engine.t) (ratio : Q) (clock : nat -> Z) :
  in_service e ->
  clutched e = false ->
  current_gear_ratio e = Some ratio ->
  (0 < increase_rate e <= 10)%Q ->
  (inject_Z (target_of e ratio) <= to_Q (current_rpm e))%Q ->
  let floor := Qmax 700 (inject_Z (target_of e ratio)) in
  let rpm := fun n : nat => to_Q (current_rpm (exec (ticks clock n) e)) in
  (forall n, result (ticks clock n) e = Ok tt) /\
  (forall n, rpm (S n) <= rpm n)%Q /\
  (forall n, floor <= rpm n)%Q /\
  (forall eps : Q, 0 < eps ->
     exists N : nat, forall n, (N <= n)%nat -> rpm n < floor + eps)%Q.
Proof.
  intros Hserv Hc Hgear Hrate Habove. cbv zeta.
  split; [| split; [| split]].
  - intros n. apply (coast_returns e ratio clock Hserv Hc Hgear Hrate Habove).
  - intros n. apply (coast_monotone e ratio clock Hserv Hc Hgear Hrate Habove).
  - intros n. apply (coast_bounds e ratio clock Hserv Hc Hgear Hrate Habove).
  - intros eps He.
    apply (coast_converges e ratio clock Hserv Hc Hgear Hrate Habove eps He).
Qed.

Lemma coasting_down_witness :
  in_service yaris_coasting /\
  (forall n : nat,
     700 <= to_Q (current_rpm
                    (exec (ticks (fun _ => 0%Z) n) yaris_coasting)))%Q.
Proof.
  assert (He : in_service yaris_coasting).
  { split; [exists (3545 # 1000)%Q; split; reflexivity |].
    repeat split; discriminate. }
  split; [exact He |].
  assert (Hrate : (0 < increase_rate yaris_coasting <= 10)%Q)
    by (split; [reflexivity | discriminate]).
  assert (Habove : (inject_Z (target_of yaris_coasting (3545 # 1000))
                    <= to_Q (current_rpm yaris_coasting))%Q)
    by discriminate.
  exact (proj1 (proj2 (proj2
    (coasting_down yaris_coasting (3545 # 1000) (fun _ => 0%Z)
       He eq_refl eq_refl Hrate Habove)))).
Defined.

(** *** The dwell of the clutch over a run *)

(** An attribute that no part of [update_rpm] assigns. *)
Lemma update_rpm_static {A} (f : Engine.t -> A) (now : Z) (e : Engine.t) :
  (forall v e, f (set_current_rpm v e) = f e) ->
  (forall v e, f (set_current_torque_nm v e) = f e) ->
  (forall v e, f (set_current_hp v e) = f e) ->
  (forall v e, f (set_throttle v e) = f e) ->
  (forall v e, f (set_clutched v e) = f e) ->
  (forall v e, f (set_clutched_timestamp v e) = f e) ->
  f (exec (update_rpm now) e) = f e.
Proof.
  intros Hr Ht Hh Hth Hc Hts.
  rewrite (update_rpm_frame f now e Hr Ht Hh).
  destruct (clutched e) eqn:E.
  - destruct (clutched_timestamp e) as [since |] eqn:Es.
    + rewrite (update_rpm_clutch_dwell now since e E Es).
      destruct (_ >? _); rewrite ?Hts, ?Hc, ?Hth; reflexivity.
    + rewrite (update_rpm_clutch_first now e E Es).
      rewrite Hts, Hth. reflexivity.
  - rewrite (update_rpm_clutch_released now e E). reflexivity.
Qed.

Lemma dwell_over_succ (e : Engine.t) (clock : nat -> Z) (since : Z)
    (n : nat) :
  dwell_over e clock since (S n) =
  dwell_over e clock since n
  || (clock n - since >? clutch_response_time e * 1000).
Proof.
  unfold dwell_over. rewrite seq_S, existsb_app. simpl.
  rewrite orb_false_r. reflexivity.
Qed.

(** X8.  Take an engine in service whose clutch is engaged with the
    timestamp [since].  Every run of ticks returns.  After it the clutch
    flag is still set, with the same timestamp, exactly when no tick of the
    run read the clock more than clutch_response_time milliseconds after
    [since]; otherwise the flag is cleared and the timestamp is gone, for
    the rest of the run.  After at least one tick the throttle is 0. *)
Theorem clutch_dwell_over_a_run (e : Engine.t) (clock : nat -> Z)
    (since : Z) (n : nat) :
  in_service e ->
  clutched e = true ->
  clutched_timestamp e = Some since ->
  let e' := exec (ticks clock n) e in
  result (ticks clock n) e = Ok tt /\
  clutched e' = negb (dwell_over e clock since n) /\
  clutched_timestamp e' =
    (if dwell_over e clock since n then None else Some since) /\
  ((0 < n)%nat -> throttle e' = 0%Q).
Proof.
  intros Hserv Hc Hts. cbv zeta.
  assert (Hrun : exists s,
            ticks clock n e = (Ok tt, s) /\
            in_service s /\
            clutch_response_time s = clutch_response_time e /\
            clutched s = negb (dwell_over e clock since n) /\
            clutched_timestamp s =
              (if dwell_over e clock since n then None else Some since) /\
            ((0 < n)%nat -> throttle s = 0%Q)).
  { induction n as [| n (s & Hrun & Hs & Hcrt & Hflag & Hstamp & Hthr)].
    - exists e. split; [reflexivity |]. split; [exact Hserv |].
      split; [reflexivity |]. split; [exact Hc |]. split; [exact Hts |].
      intros H. inversion H.
    - destruct (update_rpm_in_service (clock n) s Hs)
        as ([] & s' & Hstep & Hs').
      assert (Hexec : exec (update_rpm (clock n)) s = s')
        by (unfold exec; rewrite Hstep; reflexivity).
      exists s'. rewrite (ticks_succ clock n e s Hrun).
      split; [exact Hstep |]. split; [exact Hs' |].
      rewrite <- Hexec, dwell_over_succ.
      rewrite (update_rpm_static clutch_response_time) by reflexivity.
      rewrite (update_rpm_frame clutched),
        (update_rpm_frame clutched_timestamp),
        (update_rpm_frame throttle) by reflexivity.
      split; [exact Hcrt |].
      destruct (dwell_over e clock since n) eqn:Hover.
      + simpl in Hflag, Hstamp |- *.
        rewrite (update_rpm_clutch_released (clock n) s Hflag).
        split; [exact Hflag |]. split; [exact Hstamp |].
        intros _. apply Hthr.
        destruct n as [| n']; [discriminate Hover | apply Nat.lt_0_succ].
      + simpl in Hflag, Hstamp |- *.
        rewrite (update_rpm_clutch_dwell (clock n) since s Hflag Hstamp).
        rewrite Hcrt.
        destruct (clock n - since >? clutch_response_time e * 1000);
          repeat split; assumption. }
  destruct Hrun as (s & Hrun & _ & _ & Hflag & Hstamp & Hthr).
  unfold result, exec. rewrite Hrun. simpl. auto.
Qed.

Lemma clutch_dwell_over_a_run_witness :
  let clock := fun k : nat => Z.of_nat k * 400000 in
  clutched (exec (ticks clock 3) yaris_declutched) = true /\
  clutched (exec (ticks clock 4) yaris_declutched) = false.
Proof.
  intros clock.
  assert (He : in_service yaris_declutched).
  { split; [exists (3545 # 1000)%Q; split; reflexivity |].
    repeat split; discriminate. }
  split.
  - exact (proj1 (proj2
      (clutch_dwell_over_a_run yaris_declutched clock 0 3 He eq_refl eq_refl))).
  - exact (proj1 (proj2
      (clutch_dwell_over_a_run yaris_declutched clock 0 4 He eq_refl eq_refl))).
Defined.

(** *** The driving loop *)

Lemma slider_clamp_range (v : Q) :
  (0 <= Main.min2 (max2 v 0) 1 <= 1)%Q.
Proof.
  unfold Main.min2, max2.
  destruct (Qgtb 0 v) eqn:E1;
    [apply Qgtb_gt in E1 | apply Qgtb_le in E1];
    match goal with |- context [Qltb ?a ?b] => destruct (Qltb a b) eqn:E2 end;
    try apply Qltb_lt in E2; try apply Qltb_ge in E2; lra.
Qed.

Lemma do_shift_returns (c : shift) (g : Gearbox.t) :
  do_shift c g = (Ok tt, exec (do_shift c) g).
Proof.
  destruct c; simpl; unfold shift_up, shift_down, exec; py_unfold.
  - destruct (_ <? _); reflexivity.
  - destruct (_ >? _); reflexivity.
Qed.

Lemma do_shift_final (c : shift) (g : Gearbox.t) :
  final_drive_ratio (exec (do_shift c) g) = final_drive_ratio g.
Proof.
  destruct c; simpl; unfold shift_up, shift_down; py_unfold.
  - destruct (_ <? _); reflexivity.
  - destruct (_ >? _); reflexivity.
Qed.

Lemma in_service_pedal (e : Engine.t) (v : Q) :
  in_service e -> (0 <= v)%Q -> in_service (set_throttle v e).
Proof.
  intros (Hg & Hb & _ & Hr) Hv.
  split; [exact Hg | split; [exact Hb | split; [exact Hv | exact Hr]]].
Qed.

Lemma in_service_push (e : Engine.t) (ratio : Q) :
  in_service e -> in_service (exec (calculate_increase_rate ratio) e).
Proof.
  intros (_ & Hb & Ht & Hr).
  split; [exists ratio; split; reflexivity |].
  split; [exact Hb | split; [exact Ht | exact Hr]].
Qed.

Section Loop.

Import Main.

Lemma slide_roadworthy (pos : Z * Z) :
  total roadworthy (slide pos) (fun _ => roadworthy).
Proof.
  intros w Hw. destruct pos as [mouse_x mouse_y]. unfold slide.
  destruct (_ && _).
  - unfold when. eexists. eexists. split; [reflexivity |].
    match goal with
    | |- context [min2 (max2 ?v 0) 1] =>
        pose proof (slider_clamp_range v) as [H0 H1];
        set (value := min2 (max2 v 0) 1) in *
    end.
    destruct Hw as (Hs & _ & Hg & Hsync & Hden).
    split; [apply in_service_pedal; assumption |].
    split; [exact H1 |]. split; [exact Hg |]. split; assumption.
  - exists tt, w. split; [reflexivity | exact Hw].
Qed.

Lemma shift_key_roadworthy (c : shift) :
  total roadworthy
    (on_gearbox (do_shift c) ;;
     ratio <- on_gearbox get_current_ratio ;;
     on_engine (calculate_increase_rate ratio) ;;
     ret false)
    (fun _ => roadworthy).
Proof.
  intros w (Hs & Ht & Hg & _ & Hden).
  pose proof (do_shift_in_bounds c (gearbox w) Hg) as Hg'.
  pose proof (do_shift_ratios c (gearbox w)) as Hratios.
  pose proof (do_shift_final c (gearbox w)) as Hfinal.
  set (g' := exec (do_shift c) (gearbox w)) in *.
  assert (Hidx : exists ratio, index (gear_ratios g') (current_gear g' - 1)
                               = Ok ratio).
  { unfold gear_in_bounds, top_gear in Hg'.
    destruct (index_in_range (gear_ratios g') (current_gear g' - 1)
                ltac:(lia)) as (ratio & H & _).
    exists ratio. exact H. }
  destruct Hidx as (ratio & Hidx).
  exists false.
  exists (set_engine (exec (calculate_increase_rate ratio) (engine w))
            (set_gearbox g' w)).
  split.
  - unfold bind at 1. unfold on_gearbox at 1.
    rewrite (do_shift_returns c (gearbox w)). fold g'.
    unfold bind at 1. unfold on_gearbox at 1, get_current_ratio.
    py_unfold. cbn [gearbox set_gearbox]. rewrite Hidx. reflexivity.
  - unfold roadworthy. cbn [engine gearbox set_engine set_gearbox].
    split; [apply in_service_push, Hs |].
    split; [exact Ht |]. split; [exact Hg' |].
    split; [exists ratio; split; [exact Hidx | reflexivity] |].
    rewrite Hratios, Hfinal. exact Hden.
Qed.

Lemma handle_roadworthy (ev : event) :
  total roadworthy (handle ev) (fun _ => roadworthy).
Proof.
  destruct ev as [| pos | pos [[button0 b1] b2] | [| |] |]; simpl.
  - apply total_ret.
  - eapply total_bind; [apply slide_roadworthy | intros ?; apply total_ret].
  - eapply total_bind; [| intros ?; apply total_ret].
    destruct (button0 =? 1); [apply slide_roadworthy | apply total_ret].
  - apply (shift_key_roadworthy Up).
  - apply (shift_key_roadworthy Down).
  - apply total_ret.
  - apply total_ret.
Qed.

Lemma handle_all_roadworthy (events : list event) :
  total roadworthy (handle_all events) (fun _ => roadworthy).
Proof.
  induction events as [| ev rest IH]; simpl.
  - apply total_ret.
  - eapply total_bind; [apply handle_roadworthy | intros quit].
    destruct quit; [apply total_ret | exact IH].
Qed.

(** The speed of a gearbox in gear, with a denominator that is not 0. *)
Lemma get_speed_value (g : Gearbox.t) (rpm : pynum) (ratio : Q) :
  index (gear_ratios g) (current_gear g - 1) = Ok ratio ->
  ~ (final_drive_ratio g * ratio * 1000 == 0)%Q ->
  get_speed rpm g =
  (Ok ((to_Q rpm * tire_radius_meters g * 2 * (314159 # 100000) * 60)
       / (final_drive_ratio g * ratio * 1000))%Q, g).
Proof.
  intros Hidx Hden. unfold get_speed. py_unfold.
  rewrite Hidx, (proj2 (Qeqb_neq _ _) Hden). reflexivity.
Qed.

Lemma index_In {A} (l : list A) (i : Z) (a : A) : index l i = Ok a -> In a l.
Proof.
  unfold index. destruct (_ && _); [| discriminate].
  destruct (nth_error l _) as [b |] eqn:E; [| discriminate].
  intros H. injection H as <-. eapply nth_error_In, E.
Qed.

Lemma pass_roadworthy (events : list event) (now : Z) :
  total roadworthy (pass events now)
    (fun shown w => roadworthy w /\ shows shown w).
Proof.
  unfold pass.
  eapply total_bind; [apply handle_all_roadworthy | intros quit].
  destruct quit.
  - intros w Hw. exists None, w. split; [reflexivity |]. split; [exact Hw |].
    exact I.
  - intros w (Hs & Ht & Hg & (ratio & Hidx & Hsync) & Hden).
    destruct (update_rpm_in_service now (engine w) Hs)
      as ([] & e' & Hrun & Hs').
    assert (Hexec : exec (update_rpm now) (engine w) = e')
      by (unfold exec; rewrite Hrun; reflexivity).
    assert (Hgear : current_gear_ratio e' = Some ratio).
    { rewrite <- Hexec, (update_rpm_static current_gear_ratio)
        by reflexivity. exact Hsync. }
    assert (Hthr : (throttle e' <= 1)%Q).
    { rewrite <- Hexec, (update_rpm_frame throttle) by reflexivity.
      destruct (clutched (engine w)) eqn:Hc.
      - destruct (clutched_timestamp (engine w)) as [since |] eqn:Hts.
        + rewrite (update_rpm_clutch_dwell now since _ Hc Hts).
          destruct (_ >? _); discriminate.
        + rewrite (update_rpm_clutch_first now _ Hc Hts). discriminate.
      - rewrite (update_rpm_clutch_released now _ Hc). exact Ht. }
    assert (Hnz : ~ (final_drive_ratio (gearbox w) * ratio * 1000 == 0)%Q).
    { rewrite Forall_forall in Hden. apply Hden. eapply index_In, Hidx. }
    eexists. exists (set_engine e' w). split.
    + unfold bind at 1. unfold on_engine at 1. rewrite Hrun.
      unfold bind at 1. unfold gets at 1.
      unfold bind at 1. unfold on_gearbox at 1.
      cbn [gearbox engine set_engine].
      rewrite (get_speed_value (gearbox w) (current_rpm e') ratio Hidx Hnz).
      unfold ret. destruct w as [e g v]. reflexivity.
    + unfold roadworthy, shows. cbn [engine gearbox set_engine]. split.
      * split; [exact Hs' |]. split; [exact Hthr |]. split; [exact Hg |].
        split; [exists ratio; auto | exact Hden].
      * exists ratio. split; [exact Hgear | reflexivity].
Qed.

Lemma loop_roadworthy (inputs : list (list event * Z)) :
  total roadworthy (loop inputs) (fun _ => roadworthy).
Proof.
  induction inputs as [| [events now] rest IH]; simpl.
  - apply total_ret.
  - eapply total_bind; [apply pass_roadworthy | intros shown].
    destruct shown as [speed_kph |].
    + intros w [Hw _].
      destruct (IH w Hw) as (speeds & w' & Hrun & Hw').
      exists (speed_kph :: speeds), w'. unfold bind. rewrite Hrun. auto.
    + intros w [Hw _]. exists [], w. auto.
Qed.

Lemma start_roadworthy (e : Engine.t) (g : Gearbox.t) (v : Q) :
  (0 <= base_increase_rate e)%Q ->
  (0 <= throttle e <= 1)%Q ->
  (700 <= to_Q (current_rpm e) <= inject_Z (max_rpm e))%Q ->
  gear_in_bounds g ->
  Forall (fun ratio => ~ (final_drive_ratio g * ratio * 1000 == 0)%Q)
    (gear_ratios g) ->
  exists w, start (mkw e g v) = (Ok tt, w) /\ roadworthy w.
Proof.
  intros Hb [Ht0 Ht1] Hr Hg Hden.
  assert (Hidx : exists ratio, index (gear_ratios g) (current_gear g - 1)
                               = Ok ratio).
  { unfold gear_in_bounds, top_gear in Hg.
    destruct (index_in_range (gear_ratios g) (current_gear g - 1)
                ltac:(lia)) as (ratio & H & _).
    exists ratio. exact H. }
  destruct Hidx as (ratio & Hidx).
  exists (mkw (exec (calculate_increase_rate ratio) e) g v). split.
  - unfold start. unfold bind at 1. unfold on_gearbox at 1, get_current_ratio.
    py_unfold. cbn [gearbox]. rewrite Hidx. reflexivity.
  - unfold roadworthy. cbn [engine gearbox].
    split;
      [split;
         [exists ratio; split; reflexivity
         | split; [exact Hb | split; [exact Ht0 | exact Hr]]] |].
    split; [exact Ht1 |]. split; [exact Hg |].
    split; [exists ratio; split; [exact Hidx | reflexivity] | exact Hden].
Qed.

End Loop.

(** X9.  A pass of the driving loop over roadworthy objects returns,
    whatever the events and the clock, and leaves them roadworthy: the
    engine in service with the throttle in [0, 1], the gear within the
    gearbox, and the engine holding the ratio of the gearbox's current
    gear.  The speed it displays is the one of [get_speed] at the speed the
    tick left. *)
Theorem pass_keeps_roadworthy (w : Main.world) (events : list Main.event)
    (now : Z) :
  roadworthy w ->
  exists (shown : option Q) (w' : Main.world),
    Main.pass events now w = (Ok shown, w') /\
    roadworthy w' /\
    shows shown w'.
Proof.
  intros Hw. destruct (pass_roadworthy events now w Hw)
    as (shown & w' & Hrun & Hw' & Hshown).
  exists shown, w'. auto.
Qed.

Lemma yaris_world_roadworthy : roadworthy yaris_world.
Proof.
  split; [split; [exists (3545 # 1000)%Q; split; reflexivity |];
          repeat split; discriminate |].
  split; [discriminate |]. split; [split; discriminate |].
  split; [exists (3545 # 1000)%Q; split; reflexivity |].
  repeat constructor; discriminate.
Qed.

Lemma pass_keeps_roadworthy_witness :
  exists (shown : option Q) (w' : Main.world),
    Main.pass [Main.KEYDOWN Main.K_UP; Main.MOUSEBUTTONDOWN (200, 510)] 0
      yaris_world = (Ok shown, w') /\
    roadworthy w'.
Proof.
  destruct (pass_keeps_roadworthy yaris_world
              [Main.KEYDOWN Main.K_UP; Main.MOUSEBUTTONDOWN (200, 510)] 0
              yaris_world_roadworthy)
    as (shown & w' & Hrun & Hw' & _).
  exists shown, w'. split; [exact Hrun | exact Hw'].
Defined.

(** X10.  Built by the two constructors with max_rpm >= 700, at least one
    gear ratio and no ratio that makes final_drive_ratio * ratio * 1000
    zero, the objects run through the first push of the ratio and any number
    of passes of the loop without an exception, and end roadworthy. *)
Theorem driving_loop_never_raises
    (name manufacturer description : string) (cylinders displacement : Z)
    (cylinder_bore piston_stroke compression_ratio : Q)
    (max_rpm max_horsepower max_kw max_torque_nm ron : Z) (ecs : string)
    (peak_torque_rpm peak_hp_rpm clutch_response_time : Z)
    (ratios : list Q) (tire_size : string) (final : Q) (g : Gearbox.t)
    (inputs : list (list Main.event * Z)) :
  700 <= max_rpm ->
  ratios <> [] ->
  Forall (fun ratio => ~ (final * ratio * 1000 == 0)%Q) ratios ->
  Gearbox.init ratios tire_size final = Ok g ->
  let e :=
    Engine.init name manufacturer description cylinders displacement
      cylinder_bore piston_stroke compression_ratio max_rpm max_horsepower
      max_kw max_torque_nm ron ecs peak_torque_rpm peak_hp_rpm
      clutch_response_time in
  exists (speeds : list Q) (w : Main.world),
    (Main.start ;; Main.loop inputs) (Main.mkw e g 0) = (Ok speeds, w) /\
    roadworthy w.
Proof.
  intros Htop Hne Hden Hinit e.
  assert (Hg : gear_ratios g = ratios /\ current_gear g = 1 /\
               final_drive_ratio g = final).
  { unfold Gearbox.init in Hinit.
    destruct (get_wheel_radius tire_size); [| discriminate].
    simpl in Hinit. injection Hinit as <-. auto. }
  destruct Hg as (Hratios & Hgear & Hfinal).
  destruct (start_roadworthy e g 0) as (w0 & Hstart & Hw0).
  - discriminate.
  - split; discriminate.
  - subst e. cbn [Engine.current_rpm Engine.max_rpm Engine.init to_Q].
    split; [apply Qle_refl |]. rewrite <- Zle_Qle. exact Htop.
  - unfold gear_in_bounds, top_gear. rewrite Hratios, Hgear.
    destruct ratios; [contradiction | simpl List.length; lia].
  - rewrite Hratios, Hfinal. exact Hden.
  - destruct (loop_roadworthy inputs w0 Hw0) as (speeds & w & Hrun & Hw).
    exists speeds, w. unfold bind. rewrite Hstart. auto.
Qed.

Lemma driving_loop_never_raises_witness :
  exists (speeds : list Q) (w : Main.world),
    (Main.start ;;
     Main.loop [([Main.KEYDOWN Main.K_UP], 0); ([Main.QUIT], 16000)])
      (Main.mkw yaris_engine yaris_gearbox_built 0) = (Ok speeds, w) /\
    roadworthy w.
Proof.
  apply (driving_loop_never_raises
           "M15A-FXE" "Toyota" "3 Cylinder Engine" 3 1490
           (805 # 10) (976 # 10) 14 5500 91 67 120 91 "EFI" 4800 5500 1000
           [3545 # 1000; 1913 # 1000; 1310 # 1000; 1027 # 1000; 850 # 1000]%Q
           "195/55R16" (4294 # 1000) yaris_gearbox_built).
  - discriminate.
  - discriminate.
  - repeat constructor; discriminate.
  - reflexivity.
Defined.

(** *** What the loop reads and writes *)

(** X11.  A pointer event on the slider (x in [50, 350], y in [500, 520])
    sets the throttle and the slider value to (x - 50) / 300, a value in
    [0, 1] that the clamp leaves alone, and touches nothing else; off the
    slider it changes nothing. *)
Theorem slide_sets_the_throttle (w : Main.world) (x y : Z) :
  (500 <= y <= 520 /\ 50 <= x <= 350 ->
   let value := (inject_Z (x - 50) / 300)%Q in
   (0 <= value <= 1)%Q /\
   Main.slide (x, y) w =
   (Ok tt,
    Main.mkw (set_throttle value (Main.engine w)) (Main.gearbox w) value)) /\
  (~ (500 <= y <= 520 /\ 50 <= x <= 350) ->
   Main.slide (x, y) w = (Ok tt, w)).
Proof.
  unfold Main.slide, Main.slider_x, Main.slider_y, Main.slider_width,
    Main.slider_height.
  split.
  - intros [[Hy1 Hy2] [Hx1 Hx2]]. cbv zeta.
    assert (Hv : (0 <= inject_Z (x - 50) / 300 <= 1)%Q).
    { split.
      - apply Qle_shift_div_l; [reflexivity |].
        change (0 * 300)%Q with (inject_Z 0). rewrite <- Zle_Qle. lia.
      - apply Qle_shift_div_r; [reflexivity |].
        change (1 * 300)%Q with (inject_Z 300). rewrite <- Zle_Qle. lia. }
    split; [exact Hv |].
    destruct (Z.leb_spec 500 y); [| lia].
    destruct (Z.leb_spec y (500 + 20)); [| lia].
    destruct (Z.leb_spec 50 x); [| lia].
    destruct (Z.leb_spec x (50 + 300)); [| lia].
    cbn [andb when]. change (inject_Z 300) with 300%Q.
    unfold Main.min2, max2.
    rewrite (proj2 (Qgtb_le 0 (inject_Z (x - 50) / 300))) by apply Hv.
    rewrite (proj2 (Qltb_ge 1 (inject_Z (x - 50) / 300))) by apply Hv.
    reflexivity.
  - intros Hmiss.
    destruct (Z.leb_spec 500 y); [| reflexivity].
    destruct (Z.leb_spec y (500 + 20)); [| reflexivity].
    destruct (Z.leb_spec 50 x); [| reflexivity].
    destruct (Z.leb_spec x (50 + 300)); [| reflexivity].
    exfalso. apply Hmiss. lia.
Qed.

Lemma slide_sets_the_throttle_witness :
  Main.slide (200, 510) yaris_world =
  (Ok tt,
   Main.mkw (set_throttle (inject_Z (200 - 50) / 300)%Q (yaris_in_first 0))
     yaris_gearbox (inject_Z (200 - 50) / 300)%Q).
Proof.
  apply (proj1 (slide_sets_the_throttle yaris_world 200 510)). lia.
Defined.

(** X12.  In a gear whose ratio and final drive are positive, with a
    radius that is not negative, [get_speed] returns a speed that is not
    negative for a speed of the engine that is not negative, and a greater
    or equal one for a greater engine speed. *)
Theorem get_speed_grows_with_rpm (g : Gearbox.t) (rpm1 rpm2 : pynum)
    (ratio : Q) :
  index (gear_ratios g) (current_gear g - 1) = Ok ratio ->
  (0 <= tire_radius_meters g)%Q ->
  (0 < final_drive_ratio g)%Q ->
  (0 < ratio)%Q ->
  (0 <= to_Q rpm1 <= to_Q rpm2)%Q ->
  exists v1 v2 : Q,
    get_speed rpm1 g = (Ok v1, g) /\
    get_speed rpm2 g = (Ok v2, g) /\
    (0 <= v1 <= v2)%Q.
Proof.
  intros Hidx Hrad Hfinal Hratio [H1 H2].
  assert (Hden : (0 < final_drive_ratio g * ratio * 1000)%Q) by nra.
  assert (Hnz : ~ (final_drive_ratio g * ratio * 1000 == 0)%Q)
    by (intros E; lra).
  eexists. eexists.
  split; [apply (get_speed_value g rpm1 ratio Hidx Hnz) |].
  split; [apply (get_speed_value g rpm2 ratio Hidx Hnz) |].
  set (d := (final_drive_ratio g * ratio * 1000)%Q) in *.
  set (k := (tire_radius_meters g * 2 * (314159 # 100000) * 60)%Q).
  assert (Hk : (0 <= k)%Q) by (subst k; nra).
  assert (E1 : (to_Q rpm1 * tire_radius_meters g * 2 * (314159 # 100000) * 60
                == to_Q rpm1 * k)%Q) by (subst k; ring).
  assert (E2 : (to_Q rpm2 * tire_radius_meters g * 2 * (314159 # 100000) * 60
                == to_Q rpm2 * k)%Q) by (subst k; ring).
  rewrite E1, E2. split.
  - apply Qle_shift_div_l; [exact Hden | nra].
  - apply Qle_shift_div_l; [exact Hden |].
    assert (E : (to_Q rpm1 * k / d * d == to_Q rpm1 * k)%Q)
      by (field; intros E; lra).
    rewrite E. nra.
Qed.

Lemma get_speed_grows_with_rpm_witness :
  exists v1 v2 : Q,
    get_speed (PInt 700) yaris_gearbox = (Ok v1, yaris_gearbox) /\
    get_speed (PInt 5500) yaris_gearbox = (Ok v2, yaris_gearbox) /\
    (0 <= v1 <= v2)%Q.
Proof.
  apply (get_speed_grows_with_rpm yaris_gearbox (PInt 700) (PInt 5500)
           (3545 # 1000)).
  - reflexivity.
  - discriminate.
  - reflexivity.
  - reflexivity.
  - split; discriminate.
Defined.

(** *** The outputs of a tick *)

Lemma torque_at_bounds (e : Engine.t) (rpm : Q) :
  (0 < rpm)%Q -> 0 <= max_torque_nm e ->
  (inject_Z (max_torque_nm e) * (3 # 10) <= torque_at e rpm
   <= inject_Z (max_torque_nm e))%Q.
Proof.
  intros Hrpm Hfull.
  assert (Hf : (0 <= inject_Z (max_torque_nm e))%Q)
    by (change 0%Q with (inject_Z 0); rewrite <- Zle_Qle; exact Hfull).
  set (full := inject_Z (max_torque_nm e)) in *.
  assert (Hcurve : (torque_curve e rpm <= full)%Q).
  { unfold torque_curve. fold full.
    destruct (Qleb rpm (inject_Z (peak_torque_rpm e))) eqn:Hc.
    - apply Qleb_le in Hc.
      assert (H1 : (rpm / inject_Z (peak_torque_rpm e) <= 1)%Q)
        by (apply Qle_shift_div_r; lra).
      nra.
    - set (x := ((rpm - inject_Z (peak_torque_rpm e))
                 / inject_Z (max_rpm e - peak_torque_rpm e))%Q).
      simpl. nra. }
  unfold torque_at. fold full.
  destruct (max2_spec (torque_curve e rpm) (full * (3 # 10))%Q)
    as (_ & Hfloor & [E | E]); rewrite E in *; split; lra.
Qed.

(** X13.  A tick of an engine in service whose max_torque_nm and
    max_horsepower are not negative leaves every output in its range: the
    speed in [700, max_rpm], the torque in [30% of max_torque_nm,
    max_torque_nm] and the horsepower in [0, max_horsepower]. *)
Theorem update_rpm_outputs_in_range (e : Engine.t) (now : Z) :
  in_service e ->
  0 <= max_torque_nm e ->
  0 <= max_horsepower e ->
  let e' := exec (update_rpm now) e in
  (700 <= to_Q (current_rpm e') <= inject_Z (max_rpm e))%Q /\
  (inject_Z (max_torque_nm e) * (3 # 10) <= current_torque_nm e'
   <= inject_Z (max_torque_nm e))%Q /\
  (0 <= to_Q (current_hp e') <= inject_Z (max_horsepower e))%Q.
Proof.
  intros He Hfull Hhp. cbv zeta.
  rewrite <- (update_rpm_static max_rpm now e) by reflexivity.
  rewrite <- (update_rpm_static max_torque_nm now e) in * by reflexivity.
  rewrite <- (update_rpm_static max_horsepower now e) in * by reflexivity.
  destruct (update_rpm_in_stages e now He) as (e2 & He2 & Hrun).
  cbv zeta in Hrun. unfold exec in *. rewrite Hrun in *. cbn [snd] in *.
  cbn [current_rpm current_torque_nm current_hp max_rpm max_torque_nm
       max_horsepower set_current_hp set_current_torque_nm] in *.
  destruct He2 as (_ & _ & _ & Hlo & Hhi).
  pose proof (torque_at_bounds e2 (to_Q (current_rpm e2)) ltac:(lra) Hfull)
    as [Ht1 Ht2].
  split; [split; assumption |]. split; [split; assumption |].
  split; [| apply hp_at_le].
  assert (Hf : (0 <= inject_Z (max_torque_nm e2))%Q)
    by (change 0%Q with (inject_Z 0); rewrite <- Zle_Qle; exact Hfull).
  set (tq := torque_at e2 (to_Q (current_rpm e2))) in *.
  unfold hp_at.
  match goal with |- context [Qgtb ?a ?b] => destruct (Qgtb a b) end;
    cbn [to_Q].
  - change 0%Q with (inject_Z 0). rewrite <- Zle_Qle. exact Hhp.
  - q_literals.
    assert (0 <= tq * (737562 # 1000000))%Q by nra.
    assert (0 <= tq * (737562 # 1000000) * to_Q (current_rpm e2))%Q by nra.
    change (/ 5252)%Q with (1 # 5252)%Q. nra.
Qed.

Lemma update_rpm_outputs_in_range_witness :
  let e' := exec (update_rpm 0) (yaris_in_first 1) in
  (36 <= current_torque_nm e' <= 120)%Q /\
  (0 <= to_Q (current_hp e') <= 91)%Q.
Proof.
  assert (He : in_service (yaris_in_first 1)).
  { split; [exists (3545 # 1000)%Q; split; reflexivity |].
    repeat split; discriminate. }
  destruct (update_rpm_outputs_in_range (yaris_in_first 1) 0 He)
    as (_ & Ht & Hh).
  - discriminate.
  - discriminate.
  - change (inject_Z (max_torque_nm (yaris_in_first 1))) with 120%Q in Ht.
    split; [lra | exact Hh].
Defined.

(** *** Leaving the loop *)

Section Quit.

Import Main.

(** The speed of the engine, which no event assigns. *)
Let speed_of (w : world) : pynum := current_rpm (engine w).

Lemma preserves_on_gearbox {A} (m : M Gearbox.t A) :
  preserves speed_of (on_gearbox m).
Proof.
  intros w. unfold exec, on_gearbox. destruct (m (gearbox w)). reflexivity.
Qed.

Lemma preserves_on_engine {A} (m : M Engine.t A) :
  preserves current_rpm m -> preserves speed_of (on_engine m).
Proof.
  intros H w. unfold exec, on_engine. specialize (H (engine w)).
  unfold exec in H. destruct (m (engine w)). exact H.
Qed.

Lemma preserves_push (ratio : Q) :
  preserves current_rpm (calculate_increase_rate ratio).
Proof. intros e. reflexivity. Qed.

Lemma slide_speed (pos : Z * Z) : preserves speed_of (slide pos).
Proof.
  destruct pos as [x y]. unfold slide. apply preserves_when.
  apply preserves_bind; [apply preserves_modify; reflexivity | intros _].
  apply preserves_on_engine. apply preserves_modify. reflexivity.
Qed.

Lemma handle_speed (ev : event) : preserves speed_of (handle ev).
Proof.
  destruct ev as [| pos | pos [[button0 b1] b2] | [| |] |]; simpl;
    try apply preserves_ret.
  - apply preserves_bind; [apply slide_speed | intros _; apply preserves_ret].
  - apply preserves_bind; [| intros _; apply preserves_ret].
    destruct (button0 =? 1); [apply slide_speed | apply preserves_ret].
  - apply preserves_bind; [apply preserves_on_gearbox | intros _].
    apply preserves_bind; [apply preserves_on_gearbox | intros ratio].
    apply preserves_bind; [| intros _; apply preserves_ret].
    apply preserves_on_engine, preserves_push.
  - apply preserves_bind; [apply preserves_on_gearbox | intros _].
    apply preserves_bind; [apply preserves_on_gearbox | intros ratio].
    apply preserves_bind; [| intros _; apply preserves_ret].
    apply preserves_on_engine, preserves_push.
Qed.

Lemma handle_all_speed (events : list event) :
  preserves speed_of (handle_all events).
Proof.
  induction events as [| ev rest IH]; simpl; [apply preserves_ret |].
  apply preserves_bind; [apply handle_speed | intros quit].
  destruct quit; [apply preserves_ret | exact IH].
Qed.

(** What a sequence that ends in [ret false] returns. *)
Lemma then_false {S A} (m : M S A) (s s' : S) (q : bool) :
  (m ;; ret false) s = (Ok q, s') -> q = false.
Proof.
  unfold bind, ret. destruct (m s) as [[a | x] s1]; congruence.
Qed.

Lemma handle_quits (ev : event) (w w' : world) (q : bool) :
  handle ev w = (Ok q, w') -> (q = true <-> ev = QUIT).
Proof.
  destruct ev as [| pos | pos [[button0 b1] b2] | [| |] |]; simpl; intros H.
  - injection H as <- _. tauto.
  - apply then_false in H. subst q. split; discriminate.
  - apply then_false in H. subst q. split; discriminate.
  - assert (q = false).
    { revert H. unfold bind at 1.
      destruct (on_gearbox shift_up w) as [[[] | x] w1]; [| discriminate].
      unfold bind at 1.
      destruct (on_gearbox get_current_ratio w1) as [[ratio | x] w2];
        [| discriminate].
      apply then_false. }
    subst q. split; discriminate.
  - assert (q = false).
    { revert H. unfold bind at 1.
      destruct (on_gearbox shift_down w) as [[[] | x] w1]; [| discriminate].
      unfold bind at 1.
      destruct (on_gearbox get_current_ratio w1) as [[ratio | x] w2];
        [| discriminate].
      apply then_false. }
    subst q. split; discriminate.
  - injection H as <- _. split; discriminate.
  - injection H as <- _. split; discriminate.
Qed.

Lemma handle_all_quits (events : list event) :
  forall (w w' : world) (q : bool),
    handle_all events w = (Ok q, w') -> (q = true <-> In QUIT events).
Proof.
  induction events as [| ev rest IH]; simpl; intros w w' q H.
  - injection H as <- _. split; [discriminate | contradiction].
  - revert H. unfold bind at 1.
    destruct (handle ev w) as [[quit | x] w1] eqn:Hev; [| discriminate].
    pose proof (handle_quits ev w w1 quit Hev) as Hq.
    destruct quit.
    + intros H. injection H as <- _.
      split; [intros _; left; apply (proj1 Hq); reflexivity | reflexivity].
    + intros H. rewrite (IH w1 w' q H).
      split; [intros Hin; right; exact Hin |].
      intros [E | Hin]; [| exact Hin].
      apply Hq in E. discriminate.
Qed.

End Quit.

(** X14.  A pass over roadworthy objects displays no speed exactly when
    one of its events is a QUIT; the pass then ends before the tick, and the
    speed of the engine is the one it began with. *)
Theorem pass_ends_on_quit (w : Main.world) (events : list Main.event)
    (now : Z) :
  roadworthy w ->
  exists (shown : option Q) (w' : Main.world),
    Main.pass events now w = (Ok shown, w') /\
    (shown = None <-> In Main.QUIT events) /\
    (In Main.QUIT events ->
     current_rpm (Main.engine w') = current_rpm (Main.engine w)).
Proof.
  intros Hw.
  destruct (pass_roadworthy events now w Hw) as (shown & w' & Hrun & _).
  exists shown, w'. split; [exact Hrun |].
  revert Hrun. unfold Main.pass. unfold bind at 1.
  destruct (Main.handle_all events w) as [[quit | x] w1] eqn:Hall;
    [| discriminate].
  pose proof (handle_all_quits events w w1 quit Hall) as Hq.
  pose proof (handle_all_speed events w) as Hspeed.
  unfold exec in Hspeed. rewrite Hall in Hspeed. cbn [snd] in Hspeed.
  destruct quit.
  - intros H. injection H as <- <-.
    split; [split; [intros _; apply Hq; reflexivity | reflexivity] |].
    intros _. exact Hspeed.
  - assert (Hno : ~ In Main.QUIT events)
      by (intros Hin; apply Hq in Hin; discriminate).
    unfold bind at 1.
    destruct (Main.on_engine (update_rpm now) w1) as [[[] | x] w2];
      [| discriminate].
    unfold bind at 1. unfold gets at 1.
    unfold bind at 1.
    destruct (Main.on_gearbox _ w2) as [[v | x] w3]; [| discriminate].
    intros H. injection H as <- _.
    split; [split; [discriminate | intros Hin; contradiction] |].
    intros Hin. contradiction.
Qed.

Lemma pass_ends_on_quit_witness :
  exists (shown : option Q) (w' : Main.world),
    Main.pass [Main.KEYDOWN Main.K_UP; Main.QUIT] 0 yaris_world =
    (Ok shown, w') /\
    shown = None.
Proof.
  destruct (pass_ends_on_quit yaris_world [Main.KEYDOWN Main.K_UP; Main.QUIT]
              0 yaris_world_roadworthy)
    as (shown & w' & Hrun & Hq & _).
  exists shown, w'. split; [exact Hrun |].
  apply Hq. right. left. reflexivity.
Defined.

(** *** More throttle, more speed *)

Lemma div_le_cross (a b c d : Z) :
  0 <= a -> 0 < b -> 0 < d -> a * d <= c * b -> a / b <= c / d.
Proof.
  intros Ha Hb Hd H. apply Z.div_le_lower_bound; [exact Hd |].
  pose proof (Z.mul_div_le a b Hb) as Hq.
  assert (0 <= a / b) by (apply Z.div_pos; lia).
  nia.
Qed.

(** [int] of a float does not reverse the order. *)
Lemma int_of_float_mono (q1 q2 : Q) :
  (q1 <= q2)%Q -> int_of_float q1 <= int_of_float q2.
Proof.
  destruct q1 as [n1 d1], q2 as [n2 d2]. unfold Qle, int_of_float. simpl.
  intros H.
  destruct (Z.lt_ge_cases n1 0) as [Hn1 | Hn1];
    destruct (Z.lt_ge_cases n2 0) as [Hn2 | Hn2].
  - assert (E1 : Z.quot n1 (Z.pos d1) = - (- n1 / Z.pos d1)).
    { rewrite <- Z.quot_div_nonneg, Z.quot_opp_l by lia. lia. }
    assert (E2 : Z.quot n2 (Z.pos d2) = - (- n2 / Z.pos d2)).
    { rewrite <- Z.quot_div_nonneg, Z.quot_opp_l by lia. lia. }
    rewrite E1, E2.
    assert (- n2 / Z.pos d2 <= - n1 / Z.pos d1)
      by (apply div_le_cross; lia).
    lia.
  - assert (E1 : Z.quot n1 (Z.pos d1) = - (Z.quot (- n1) (Z.pos d1))).
    { rewrite Z.quot_opp_l by lia. lia. }
    assert (0 <= Z.quot (- n1) (Z.pos d1)) by (apply Z.quot_pos; lia).
    assert (0 <= Z.quot n2 (Z.pos d2)) by (apply Z.quot_pos; lia).
    lia.
  - exfalso. nia.
  - rewrite !Z.quot_div_nonneg by lia. apply div_le_cross; lia.
Qed.

Section Throttle.

Local Open Scope Q_scope.

(** The speed one released tick leaves as a function of the target. *)
Variables top c r : Q.
Hypothesis Htop : 700 <= c <= top.
Hypothesis Hr : 0 <= r.

Lemma released_step_mono (t1 t2 v1 v2 : Q) :
  t1 <= t2 ->
  (c < t1 ->
   v1 == Qmin top (Qmin t1 (c + (t1 - c) * r * (1 - (c / top) ^ 2)))) ->
  (t1 <= c -> 700 < c ->
   v1 == Qmin top (Qmax 700 (c - (c - t1) * r * (1 # 10)))) ->
  (t1 <= c -> c <= 700 -> v1 == Qmin top c) ->
  (c < t2 ->
   v2 == Qmin top (Qmin t2 (c + (t2 - c) * r * (1 - (c / top) ^ 2)))) ->
  (t2 <= c -> 700 < c ->
   v2 == Qmin top (Qmax 700 (c - (c - t2) * r * (1 # 10)))) ->
  (t2 <= c -> c <= 700 -> v2 == Qmin top c) ->
  v1 <= v2.
Proof.
  intros Ht Hup1 Hdown1 Hrest1 Hup2 Hdown2 Hrest2.
  pose proof (square_ratio_le_1 c top ltac:(lra) ltac:(lra) ltac:(lra)) as Hd.
  set (d := 1 - (c / top) ^ 2) in *.
  destruct (Qlt_le_dec c t1) as [H1 | H1].
  - (* both rise *)
    rewrite (Hup1 H1), (Hup2 ltac:(lra)).
    assert (Hinc : (t1 - c) * r * d <= (t2 - c) * r * d).
    { assert (0 <= r * d) by nra. nra. }
    revert Hinc. q_minmax.
  - destruct (Qlt_le_dec c t2) as [H2 | H2].
    + (* the first does not rise, the second does *)
      rewrite (Hup2 H2).
      assert (Hinc : 0 <= (t2 - c) * r * d).
      { assert (0 <= r * d) by nra. nra. }
      assert (Hv1 : v1 <= c).
      { destruct (Qlt_le_dec 700 c) as [Hi | Hi].
        - rewrite (Hdown1 H1 Hi).
          assert (0 <= (c - t1) * r * (1 # 10)) by nra.
          q_minmax.
        - rewrite (Hrest1 H1 Hi). q_minmax. }
      revert Hinc Hv1. q_minmax.
    + (* neither rises *)
      destruct (Qlt_le_dec 700 c) as [Hi | Hi].
      * rewrite (Hdown1 H1 Hi), (Hdown2 H2 Hi).
        assert (Hdec : (c - t2) * r * (1 # 10) <= (c - t1) * r * (1 # 10))
          by nra.
        revert Hdec. q_minmax.
      * rewrite (Hrest1 H1 Hi), (Hrest2 H2 Hi). apply Qle_refl.
Qed.

End Throttle.

(** X15.  For an engine in service in a gear of ratio >= 0 with the clutch
    released, a tick with the throttle at [t2] leaves a speed at least as
    high as a tick with the throttle at [t1 <= t2]. *)
Theorem more_throttle_more_speed (e : Engine.t) (ratio t1 t2 : Q)
    (now : Z) :
  in_service e ->
  clutched e = false ->
  current_gear_ratio e = Some ratio ->
  (0 <= ratio)%Q ->
  (0 <= t1 <= t2)%Q ->
  (to_Q (current_rpm (exec (set_pedal t1 ;; update_rpm now) e))
   <= to_Q (current_rpm (exec (set_pedal t2 ;; update_rpm now) e)))%Q.
Proof.
  intros ((r0 & Hg0 & Hrate) & Hbase & _ & Hlo & Hhi) Hc Hgear Hratio [Ht1 Ht].
  assert (r0 = ratio) by congruence. subst r0.
  assert (Hr : (0 <= increase_rate e)%Q).
  { rewrite Hrate. q_literals. nra. }
  assert (Htop : max_rpm e <> 0).
  { intros E. rewrite E in Hhi. change (inject_Z 0) with 0%Q in Hhi. lra. }
  assert (Hexec : forall t,
            exec (set_pedal t ;; update_rpm now) e =
            exec (update_rpm now) (set_throttle t e)) by reflexivity.
  rewrite !Hexec.
  pose proof (released_tick_value now (set_throttle t1 e) ratio Hc Hgear Htop)
    as (Hup1 & Hdown1 & Hrest1).
  pose proof (released_tick_value now (set_throttle t2 e) ratio Hc Hgear Htop)
    as (Hup2 & Hdown2 & Hrest2).
  cbn [current_rpm max_rpm increase_rate set_throttle] in *.
  apply (released_step_mono (inject_Z (max_rpm e)) (to_Q (current_rpm e))
           (increase_rate e) (conj Hlo Hhi) Hr
           (inject_Z (target_of (set_throttle t1 e) ratio))
           (inject_Z (target_of (set_throttle t2 e) ratio)));
    try assumption.
  rewrite <- Zle_Qle. unfold target_of. apply int_of_float_mono.
  cbn [max_rpm throttle set_throttle].
  assert (0 <= inject_Z (max_rpm e))%Q by lra.
  assert (0 <= inject_Z (max_rpm e) * ratio)%Q by nra.
  nra.
Qed.

Lemma more_throttle_more_speed_witness :
  (to_Q (current_rpm
           (exec (set_pedal (1 # 2) ;; update_rpm 0) (yaris_in_first 0)))
   <= to_Q (current_rpm
              (exec (set_pedal 1 ;; update_rpm 0) (yaris_in_first 0))))%Q.
Proof.
  assert (He : in_service (yaris_in_first 0)).
  { split; [exists (3545 # 1000)%Q; split; reflexivity |].
    repeat split; discriminate. }
  apply (more_throttle_more_speed (yaris_in_first 0) (3545 # 1000)
           (1 # 2) 1 0 He eq_refl eq_refl).
  - discriminate.
  - split; discriminate.
Defined.
